(** * Maya-Auto-Rigger: a shallow embedding of the rig-construction engine
    of [AutoRigger.py] (classes [Markers], [Skeleton], [FK], [FKIK],
    [Helpers] and [AutoRiggerGUI.createUnifromScaling]).

    Maya's [cmds] calls are modelled as operations on small explicit scene
    records; Python floats are modelled as rationals [Q]. *)

From Stdlib Require Import QArith String List.
From stdpp Require Import base gmap sets list strings pretty.
Import ListNotations.

Open Scope string_scope.

(** List concatenation, next to the string [++] of [string_scope]. *)
Infix "++l" := app (at level 60, right associativity).

(** ** Vectors *)

Definition vec3 : Type := (Q * Q * Q)%type.

(** ** Python helpers *)

(** [s.startswith(p)] *)
Fixpoint py_startswith (p s : string) : bool :=
  match p, s with
  | EmptyString, _ => true
  | String c p', String d s' => if Ascii.eqb c d then py_startswith p' s' else false
  | String _ _, EmptyString => false
  end.

(** [s.replace(old, new)] for a non-empty [old]: every non-overlapping
    occurrence, scanned from the left, is replaced.  [fuel] bounds the
    number of scanned characters; [py_replace] gives it [length s + 1]. *)
Fixpoint py_replace_fuel (fuel : nat) (old new s : string) : string :=
  match fuel with
  | O => s
  | S fuel' =>
      match s with
      | EmptyString => EmptyString
      | String c s' =>
          if py_startswith old s
          then new ++ py_replace_fuel fuel' old new
                        (substring (String.length old)
                                   (String.length s - String.length old) s)
          else String c (py_replace_fuel fuel' old new s')
      end
  end.

(** For an empty [old], Python inserts [new] before every character and
    at the end. *)
Fixpoint py_replace_empty (new s : string) : string :=
  match s with
  | EmptyString => new
  | String c s' => new ++ String c (py_replace_empty new s')
  end.

Definition py_replace (s old new : string) : string :=
  match old with
  | EmptyString => py_replace_empty new s
  | _ => py_replace_fuel (S (String.length s)) old new s
  end.

(** ** Topology catalog ([class Markers]) *)

Module Markers.

Definition defaultBaseMarkers : list (string * vec3) :=
  [ ("root", (0, 0, 0)); ("pelvis", (0, 105, 0));
    ("spine1", (0, 125, 5)); ("spine2", (0, 138, 2.5)); ("spine3", (0, 150, -4.5));
    ("neck", (0, 158.5, -3)); ("head", (0, 181.5, 1)) ]%Q.

Definition defaultLeftMarkers : list (string * vec3) :=
  [ ("clavicle_l", (14, 149.5, -4.5)); ("upperArm_l", (23.5, 145.5, -4.5));
    ("lowerArm_l", (36, 129, -5.5)); ("hand_l", (58.5, 110, 5));
    ("thumb1_l", (57, 106, 11.5)); ("thumb2_l", (57, 104.5, 15)); ("thumb3_l", (57.5, 102, 19));
    ("index1_l", (64, 103, 12.5)); ("index2_l", (65, 98, 15)); ("index3_l", (64.5, 94.5, 17));
    ("middle1_l", (65, 102, 9)); ("middle2_l", (66, 96.5, 11)); ("middle3_l", (62, 92, 12.5));
    ("thigh_l", (9, 95, 1)); ("knee_l", (14, 55, 0)); ("foot_l", (15.5, 15.5, -6));
    ("ball_l", (17, 3.5, 5)); ("toe_l", (17, 3.5, 15.5)) ]%Q.

(** [for name, (x, y, z) in defaultLeftMarkers():
       rightMarkers.append((name.replace('_l', '_r'), (-x, y, z)))] *)
Definition defaultRightMarkers : list (string * vec3) :=
  map (fun '(name, (x, y, z)) => (py_replace name "_l" "_r", (- x, y, z)%Q))
      defaultLeftMarkers.

Definition defaultSplineBaseMarkers : list (string * vec3) :=
  [ ("root", (0, 0, 0)); ("pelvis", (0, 105, 0));
    ("spine1", (0, 111, 1.5)); ("spine2", (0, 117, 3)); ("spine3", (0, 125, 5));
    ("spine4", (0, 129, 4)); ("spine5", (0, 133, 3)); ("spine6", (0, 138, 2.5));
    ("spine7", (0, 142, 0.5)); ("spine8", (0, 146, -2)); ("spine9", (0.0, 150, -4.5));
    ("neck", (0, 158.5, -3)); ("head", (0, 181.5, 1)) ]%Q.

End Markers.


(** ** Exceptions raised by the engine *)

Inductive exc : Type :=
  | KeyError (key : string)      (** missing key of a Python dict *)
  | IndexError                   (** list index out of range *)
  | MayaError (msg : string)     (** a [cmds] call refused by Maya *)
  | ValueError (msg : string)    (** e.g. [list.remove] of an absent item *)
  | AttributeError (msg : string). (** e.g. a method called on [None] *)

(** Python negative indexing [l[-k]] for [k > 0]. *)
Definition py_index_neg {A} (l : list A) (k : nat) : exc + A :=
  if decide (k <= length l) then
    match nth_error l (length l - k) with
    | Some a => inr a
    | None => inl IndexError
    end
  else inl IndexError.

(** Python slice [l[i:j]]. *)
Definition py_slice {A} (i j : nat) (l : list A) : list A := take (j - i) (drop i l).

(** ** Skeleton builder ([class Skeleton]) *)

Module Skeleton.

(** A joint of the scene: its name, its parent joint and its world position. *)
Record joint : Type := mkJoint {
  jname : string;
  jparent : option string;
  jpos : vec3
}.

(** The part of the Maya scene the skeleton builder touches: the marker
    locators still present, the joints created so far (in creation order)
    and the joints whose orientation was re-derived by
    [cmds.joint(jParent, e=True, zso=True, oj='xyz', sao='yup')]. *)
Record scene : Type := mkScene {
  markers : gset string;
  joints : list joint;
  oriented : list string
}.

(** The builder reads the marker dictionary [markerData] and threads the
    scene; an exception stops it (earlier scene edits are not undone, the
    modelled result simply carries the exception). *)
Definition M (A : Type) : Type := scene -> exc + (A * scene).

Definition ret {A} (a : A) : M A := fun s => inr (a, s).
Definition throw {A} (e : exc) : M A := fun _ => inl e.
Definition bind {A B} (m : M A) (k : A -> M B) : M B :=
  fun s => match m s with
           | inl e => inl e
           | inr (a, s') => k a s'
           end.
Definition lift {A} (r : exc + A) : M A :=
  match r with inl e => throw e | inr a => ret a end.

Notation "'let*' x ':=' m 'in' k" := (bind m (fun x => k))
  (at level 200, x name, m at level 100, right associativity).

Abbreviation markerDict := (gmap string vec3).

(** [cmds.delete(markerName)]: Maya refuses a name that matches no object. *)
Definition delete_marker (n : string) : M unit :=
  fun s =>
    if decide (n ∈ markers s)
    then inr (tt, mkScene (markers s ∖ {[ n ]}) (joints s) (oriented s))
    else inl (MayaError ("No object matches name: " ++ n)).

(** [Skeleton.createJoint]: the joint is created at world position [jPos]
    (selection cleared), then parented under [jParent] if given, which keeps
    its world position, and the parent's axes are re-oriented. *)
Definition createJoint (jName : string) (jParent : option string) (jPos : vec3)
  : M string :=
  fun s =>
    let js := (joints s ++ [mkJoint jName jParent jPos])%list in
    match jParent with
    | Some p => inr (jName, mkScene (markers s) js ((oriented s ++ [p])%list))
    | None => inr (jName, mkScene (markers s) js (oriented s))
    end.

(** [Skeleton.createJointFromMarker]: [pos = markerData[markerName]]
    (a [KeyError] when the name is missing), then the marker is deleted and
    the joint created. *)
Definition createJointFromMarker (markerName : string) (markerData : markerDict)
  (jParent : option string) : M string :=
  let* pos := lift (match markerData !! markerName with
                    | Some p => inr p
                    | None => inl (KeyError markerName)
                    end) in
  let* _ := delete_marker markerName in
  createJoint markerName jParent pos.

(** [Skeleton.createJointChainFromMarkers]: each joint is parented under
    the previous one, the first under [jParent]. *)
Fixpoint createJointChainFromMarkers (markerNames : list string)
  (markerData : markerDict) (parent : option string) : M (list string) :=
  match markerNames with
  | [] => ret []
  | markerName :: rest =>
      let* newJoint := createJointFromMarker markerName markerData parent in
      let* chain := createJointChainFromMarkers rest markerData (Some newJoint) in
      ret (newJoint :: chain)
  end.

(** The 13-tuple returned by [Skeleton.createSkeleton]. *)
Record handles : Type := mkHandles {
  rootJ : string; pelvisJ : string; spineJs : list string;
  leftArmJs : list string; leftThumbJs : list string; leftIndexJs : list string;
  leftMiddleJs : list string; leftLegJs : list string;
  rightArmJs : list string; rightThumbJs : list string; rightIndexJs : list string;
  rightMiddleJs : list string; rightLegJs : list string
}.

Definition names (ms : list (string * vec3)) : list string := map fst ms.

(** [Skeleton.createSkeleton(markerData, splineSpine)]. *)
Definition createSkeleton (markerData : markerDict) (splineSpine : bool)
  : M handles :=
  let baseMarkers := if splineSpine then names Markers.defaultSplineBaseMarkers
                     else names Markers.defaultBaseMarkers in
  let leftSideMarkers := names Markers.defaultLeftMarkers in
  let rightSideMarkers := names Markers.defaultRightMarkers in
  let chain ns p := createJointChainFromMarkers ns markerData (Some p) in
  let* rootJ := createJointFromMarker "root" markerData None in
  let* pelvisJ := createJointFromMarker "pelvis" markerData (Some rootJ) in
  let* spineJs := chain (drop 2 baseMarkers) pelvisJ in
  let* spineTop := lift (py_index_neg spineJs 3) in
  let* leftArmJs := chain (take 4 leftSideMarkers) spineTop in
  let* leftHand := lift (py_index_neg leftArmJs 1) in
  let* leftThumbJs := chain (py_slice 4 7 leftSideMarkers) leftHand in
  let* leftHand := lift (py_index_neg leftArmJs 1) in
  let* leftIndexJs := chain (py_slice 7 10 leftSideMarkers) leftHand in
  let* leftHand := lift (py_index_neg leftArmJs 1) in
  let* leftMiddleJs := chain (py_slice 10 13 leftSideMarkers) leftHand in
  let* leftLegJs := chain (drop 13 leftSideMarkers) pelvisJ in
  let* spineTop := lift (py_index_neg spineJs 3) in
  let* rightArmJs := chain (take 4 rightSideMarkers) spineTop in
  let* rightHand := lift (py_index_neg rightArmJs 1) in
  let* rightThumbJs := chain (py_slice 4 7 rightSideMarkers) rightHand in
  let* rightHand := lift (py_index_neg rightArmJs 1) in
  let* rightIndexJs := chain (py_slice 7 10 rightSideMarkers) rightHand in
  let* rightHand := lift (py_index_neg rightArmJs 1) in
  let* rightMiddleJs := chain (py_slice 10 13 rightSideMarkers) rightHand in
  let* rightLegJs := chain (drop 13 rightSideMarkers) pelvisJ in
  ret (mkHandles rootJ pelvisJ spineJs leftArmJs leftThumbJs leftIndexJs
         leftMiddleJs leftLegJs rightArmJs rightThumbJs rightIndexJs
         rightMiddleJs rightLegJs).

(** The marker dictionary and scene after [updateMarkerData]: every marker
    of the list is a locator of the scene, keyed by its name. *)
Definition dict_of (ms : list (string * vec3)) : markerDict := list_to_map ms.
Definition scene_of (ms : list (string * vec3)) : scene :=
  mkScene (list_to_set (names ms)) [] [].

(** The parent relation of the created joints, in creation order. *)
Definition links (s : scene) : list (string * option string) :=
  map (fun j => (jname j, jparent j)) (joints s).

(** The parent of the joint named [n] in the scene. *)
Fixpoint parent_in (js : list joint) (n : string) : option (option string) :=
  match js with
  | [] => None
  | j :: rest => if String.eqb (jname j) n then Some (jparent j) else parent_in rest n
  end.

(** The names every topology reads from the marker dictionary. *)
Definition required_markers (splineSpine : bool) : list string :=
  (if splineSpine then names Markers.defaultSplineBaseMarkers
   else names Markers.defaultBaseMarkers)
  ++ names Markers.defaultLeftMarkers ++ names Markers.defaultRightMarkers.

End Skeleton.

(** The marker sets offered by the markers tab: a half body (left side plus
    the base or spline base) and a full body (both sides). *)
Definition halfBody (splineSpine : bool) : list (string * vec3) :=
  Markers.defaultLeftMarkers ++
  (if splineSpine then Markers.defaultSplineBaseMarkers else Markers.defaultBaseMarkers).

Definition fullBody (splineSpine : bool) : list (string * vec3) :=
  halfBody splineSpine ++ Markers.defaultRightMarkers.

(** ** Proofs about the skeleton builder *)

Module SkeletonFacts.
Import Skeleton.

Lemma bind_inr {A B} (m : M A) (k : A -> M B) s a s' :
  m s = inr (a, s') -> bind m k s = k a s'.
Proof. intros H. unfold bind. by rewrite H. Qed.

Lemma bind_inl {A B} (m : M A) (k : A -> M B) s e :
  m s = inl e -> bind m k s = inl e.
Proof. intros H. unfold bind. by rewrite H. Qed.

Lemma bind_inr_inv {A B} (m : M A) (k : A -> M B) s r :
  bind m k s = inr r -> exists a s1, m s = inr (a, s1) /\ k a s1 = inr r.
Proof.
  unfold bind. destruct (m s) as [e|[a s1]]; [discriminate|]. eauto.
Qed.

Lemma bind_lift {A B} (r : exc + A) (k : A -> M B) s :
  bind (lift r) k s = match r with inl e => inl e | inr a => k a s end.
Proof. by destruct r. Qed.

Lemma lift_inr_inv {A} (r : exc + A) s a s' :
  lift r s = inr (a, s') -> r = inr a /\ s' = s.
Proof. destruct r; simpl; unfold throw, ret; [discriminate|]. by intros [= -> ->]. Qed.

Lemma createJointFromMarker_eq data n p s :
  createJointFromMarker n data p s =
  match data !! n with
  | None => inl (KeyError n)
  | Some pos =>
      if decide (n ∈ markers s)
      then inr (n, mkScene (markers s ∖ {[ n ]})
                     (joints s ++ [mkJoint n p pos])%list
                     (match p with Some q => (oriented s ++ [q])%list
                                 | None => oriented s end))
      else inl (MayaError ("No object matches name: " ++ n))
  end.
Proof.
  unfold createJointFromMarker, bind, lift, delete_marker, createJoint, ret, throw.
  destruct (data !! n); [|done]. destruct (decide _); [|done]. by destruct p.
Qed.

(** A successful joint creation from a marker records the joint under the
    requested parent and returns the marker name. *)
Lemma createJointFromMarker_success data n p s j s' :
  createJointFromMarker n data p s = inr (j, s') ->
  j = n /\ links s' = (links s ++ [(n, p)])%list /\ is_Some (data !! n).
Proof.
  rewrite createJointFromMarker_eq.
  destruct (data !! n) eqn:E; [|discriminate].
  destruct (decide _); [|discriminate]. intros [= <- <-].
  unfold links; simpl. rewrite map_app. eauto.
Qed.

(** The parent links of a chain: each joint under the previous one. *)
Fixpoint chain_links (ns : list string) (p : option string)
  : list (string * option string) :=
  match ns with
  | [] => []
  | n :: rest => (n, p) :: chain_links rest (Some n)
  end.

Lemma chain_success data ns p s js s' :
  createJointChainFromMarkers ns data p s = inr (js, s') ->
  js = ns /\ links s' = (links s ++ chain_links ns p)%list /\
  Forall (fun n => is_Some (data !! n)) ns.
Proof.
  revert p s js s'. induction ns as [|n ns IH]; intros p s js s' H; simpl in H.
  - unfold ret in H. injection H as <- <-. rewrite app_nil_r. done.
  - apply bind_inr_inv in H as (j & s1 & H1 & H).
    apply createJointFromMarker_success in H1 as (-> & Hl1 & Hn).
    apply bind_inr_inv in H as (js' & s2 & H2 & H).
    apply IH in H2 as (-> & Hl2 & Hall).
    unfold ret in H. injection H as <- <-.
    rewrite Hl2, Hl1, <- app_assoc. simpl. auto.
Qed.

(** The invariant threaded through a build: the markers still in the
    scene are those of the dictionary minus the ones already consumed. *)
Lemma createJointFromMarker_cases data n p s (X : gset string) :
  markers s = dom data ∖ X -> n ∉ X ->
  (exists s', createJointFromMarker n data p s = inr (n, s') /\
              markers s' = dom data ∖ (X ∪ {[ n ]}) /\ is_Some (data !! n)) \/
  (createJointFromMarker n data p s = inl (KeyError n) /\ data !! n = None).
Proof.
  intros Hm Hn. rewrite createJointFromMarker_eq.
  destruct (data !! n) as [pos|] eqn:E; [left|right; done].
  assert (n ∈ markers s) as Hin.
  { rewrite Hm. apply elem_of_difference. split; [|done].
    apply elem_of_dom. by rewrite E. }
  rewrite decide_True by done.
  eexists; split; [reflexivity|]. simpl. split; [rewrite Hm; set_solver|by eauto].
Qed.

Lemma chain_cases data ns p s (X : gset string) :
  markers s = dom data ∖ X -> NoDup ns -> Forall (fun n => n ∉ X) ns ->
  (exists s', createJointChainFromMarkers ns data p s = inr (ns, s') /\
              markers s' = dom data ∖ (X ∪ list_to_set ns) /\
              Forall (fun n => is_Some (data !! n)) ns) \/
  (exists k, createJointChainFromMarkers ns data p s = inl (KeyError k) /\
             k ∈ ns /\ data !! k = None).
Proof.
  revert p s X. induction ns as [|n ns IH]; intros p s X Hm Hnd Hx; simpl.
  - left. exists s. split; [done|]. split; [rewrite Hm; set_solver|constructor].
  - apply NoDup_cons in Hnd as [Hnotin Hnd]. apply Forall_cons in Hx as [Hn Hx].
    destruct (createJointFromMarker_cases data n p s X Hm Hn)
      as [(s1 & H1 & Hm1 & Hp1)|[H1 Hnone]].
    + rewrite (bind_inr _ _ _ _ _ H1).
      assert (Forall (fun m => m ∉ X ∪ {[ n ]}) ns) as Hx'.
      { apply Forall_forall. intros m Hm'. rewrite Forall_forall in Hx.
        apply not_elem_of_union. split; [by apply Hx|].
        apply not_elem_of_singleton. intros ->. done. }
      destruct (IH (Some n) s1 (X ∪ {[ n ]}) Hm1 Hnd Hx')
        as [(s2 & H2 & Hm2 & Hall)|(k & H2 & Hk & Hnone)].
      * left. exists s2. rewrite (bind_inr _ _ _ _ _ H2). split; [done|].
        split; [rewrite Hm2; set_solver|by constructor].
      * right. exists k. rewrite (bind_inl _ _ _ _ H2).
        split; [done|]. split; [by apply list_elem_of_further|done].
    + right. exists n. rewrite (bind_inl _ _ _ _ H1).
      split; [done|]. split; [apply list_elem_of_here|done].
Qed.

Lemma chain_head_missing data n ns p s :
  data !! n = None ->
  createJointChainFromMarkers (n :: ns) data p s = inl (KeyError n).
Proof.
  intros Hn. simpl. apply bind_inl. by rewrite createJointFromMarker_eq, Hn.
Qed.

Lemma elem_of_incl (k : string) (ns req : list string) :
  k ∈ ns -> Forall (fun x => x ∈ req) ns -> k ∈ req.
Proof. intros Hk Hall. rewrite Forall_forall in Hall. by apply Hall. Qed.

Lemma forall_present_elem (data : markerDict) (k : string) (ns : list string) :
  Forall (fun n => is_Some (data !! n)) ns -> k ∈ ns -> data !! k = None -> False.
Proof.
  intros Hall Hk Hn. rewrite Forall_forall in Hall.
  destruct (Hall k Hk) as [x Hx]. congruence.
Qed.

(** The names read by [createSkeleton], group by group, in build order. *)
Lemma required_markers_groups (sp : bool) :
  let base := if sp then names Markers.defaultSplineBaseMarkers
              else names Markers.defaultBaseMarkers in
  let left := names Markers.defaultLeftMarkers in
  let right := names Markers.defaultRightMarkers in
  required_markers sp =
  (["root"; "pelvis"] ++ drop 2 base ++
   take 4 left ++ py_slice 4 7 left ++ py_slice 7 10 left ++ py_slice 10 13 left ++
   drop 13 left ++
   take 4 right ++ py_slice 4 7 right ++ py_slice 7 10 right ++ py_slice 10 13 right ++
   drop 13 right)%list.
Proof. by destruct sp; vm_compute. Qed.

Ltac vdecide := apply (bool_decide_unpack _); vm_compute; exact I.

(** Evaluates a Python index into a catalog-derived list. *)
Ltac sk_index :=
  match goal with
  | |- context [py_index_neg ?l ?k] =>
      let v := eval vm_compute in (py_index_neg l k) in
      change (py_index_neg l k) with v
  end.

(** One step of [createSkeleton] under the marker invariant; [on_err]
    closes the goal of the failing branch, whose hypotheses are the name
    [Hk : k ∈ ns] and [Hn : data !! k = None]. *)
Ltac sk_step on_err :=
  match goal with
  | Hm : markers ?s = dom ?d ∖ ?X
    |- context [bind (createJointFromMarker ?n ?d ?p) ?k ?s] =>
      let s1 := fresh "s" in let H1 := fresh "H" in let Hm1 := fresh "Hm" in
      let Hp := fresh "Hp" in let Hn := fresh "Hn" in let Hk := fresh "Hk" in
      destruct (createJointFromMarker_cases d n p s X Hm ltac:(vdecide))
        as [(s1 & H1 & Hm1 & Hp)|[H1 Hn]];
      [ rewrite (bind_inr _ _ _ _ _ H1); cbv beta; clear H1 Hm
      | rewrite (bind_inl _ _ _ _ H1);
        assert (Hk : n ∈ [n]) by apply list_elem_of_here; on_err n Hk Hn ]
  | Hm : markers ?s = dom ?d ∖ ?X
    |- context [bind (createJointChainFromMarkers ?ns ?d ?p) ?k ?s] =>
      let s1 := fresh "s" in let H1 := fresh "H" in let Hm1 := fresh "Hm" in
      let Hp := fresh "Hp" in let Hn := fresh "Hn" in let Hk := fresh "Hk" in
      let k := fresh "k" in
      destruct (chain_cases d ns p s X Hm ltac:(vdecide) ltac:(vdecide))
        as [(s1 & H1 & Hm1 & Hp)|(k & H1 & Hk & Hn)];
      [ rewrite (bind_inr _ _ _ _ _ H1); cbv beta; clear H1 Hm
      | rewrite (bind_inl _ _ _ _ H1); on_err k Hk Hn ]
  | |- context [bind (lift ?r) ?k ?s] =>
      rewrite (bind_lift r k s); try sk_index; cbv beta iota
  end.

End SkeletonFacts.

(** ** Claims about the skeleton builder *)

Module SkeletonClaims.
Import Skeleton SkeletonFacts.

(** The parent links the build should produce for a topology, written
    out side by side: root at world, pelvis under root, the spine chain
    under the pelvis, the arm chains under the top spine joint ([spine3] /
    [spine9]), the three finger chains under the hand, the leg chains under
    the pelvis. *)
Definition side_links (top sfx : string) : list (string * option string) :=
  chain_links ["clavicle" ++ sfx; "upperArm" ++ sfx; "lowerArm" ++ sfx; "hand" ++ sfx]
              (Some top) ++l
  chain_links ["thumb1" ++ sfx; "thumb2" ++ sfx; "thumb3" ++ sfx] (Some ("hand" ++ sfx)) ++l
  chain_links ["index1" ++ sfx; "index2" ++ sfx; "index3" ++ sfx] (Some ("hand" ++ sfx)) ++l
  chain_links ["middle1" ++ sfx; "middle2" ++ sfx; "middle3" ++ sfx] (Some ("hand" ++ sfx)) ++l
  chain_links ["thigh" ++ sfx; "knee" ++ sfx; "foot" ++ sfx; "ball" ++ sfx; "toe" ++ sfx]
              (Some "pelvis").

Definition spine_top (sp : bool) : string := if sp then "spine9" else "spine3".

Definition skeleton_links (sp : bool) : list (string * option string) :=
  let spine := if sp then ["spine1"; "spine2"; "spine3"; "spine4"; "spine5"; "spine6";
                           "spine7"; "spine8"; "spine9"; "neck"; "head"]
               else ["spine1"; "spine2"; "spine3"; "neck"; "head"] in
  ([("root", None); ("pelvis", Some "root")] ++ chain_links spine (Some "pelvis") ++
   side_links (spine_top sp) "_l" ++ side_links (spine_top sp) "_r")%list.

Ltac missing_err k Hk Hn :=
  exists k; split; [reflexivity|];
  split; [eapply elem_of_incl; [exact Hk|vdecide] | exact Hn].

(** C7: if the marker dictionary lacks a name required by the selected
    topology (base or spline base, left side, right side), [createSkeleton]
    fails, and the failure is the missing-marker error of the dictionary
    lookup [markerData[markerName]] (Python's [KeyError]), raised for a
    required name that is absent.  The scene holds exactly the markers of
    the dictionary, as after [updateMarkerData]. *)
Theorem createSkeleton_missing_marker (data : markerDict) (sp : bool) (s : scene) :
  markers s = dom data ->
  (exists k, k ∈ required_markers sp /\ data !! k = None) ->
  exists k, createSkeleton data sp s = inl (KeyError k) /\
            k ∈ required_markers sp /\ data !! k = None.
Proof.
  intros Hm0 (k0 & Hk0 & Hn0).
  assert (Hm : markers s = dom data ∖ ∅) by (rewrite Hm0; set_solver).
  clear Hm0. rewrite required_markers_groups in Hk0. cbv zeta in Hk0.
  destruct sp; unfold createSkeleton; cbv beta iota zeta;
    repeat sk_step missing_err; unfold ret; exfalso;
    repeat rewrite elem_of_app in Hk0;
    repeat match goal with
    | H : _ \/ _ |- _ => destruct H as [H|H]
    end;
    try (apply elem_of_cons in Hk0 as [->|Hk0];
         [ match goal with Hp : is_Some (data !! "root") |- _ =>
             destruct Hp; congruence end
         | apply elem_of_cons in Hk0 as [->|Hk0];
           [ match goal with Hp : is_Some (data !! "pelvis") |- _ =>
               destruct Hp; congruence end
           | by apply not_elem_of_nil in Hk0 ] ]);
    match goal with
    | Hp : Forall _ ?l, Hk : k0 ∈ ?l |- _ => exact (forall_present_elem _ _ _ Hp Hk Hn0)
    end.
Qed.

Lemma createSkeleton_missing_marker_witness :
  markers (mkScene (dom (delete "knee_l" (dict_of (fullBody false)))) [] []) =
    dom (delete "knee_l" (dict_of (fullBody false))) /\
  (exists k, k ∈ required_markers false /\
             delete "knee_l" (dict_of (fullBody false)) !! k = None) /\
  exists k, createSkeleton (delete "knee_l" (dict_of (fullBody false))) false
              (mkScene (dom (delete "knee_l" (dict_of (fullBody false)))) [] []) =
            inl (KeyError k) /\
            k ∈ required_markers false /\ delete "knee_l" (dict_of (fullBody false)) !! k = None.
Proof.
  assert (H1 : markers (mkScene (dom (delete "knee_l" (dict_of (fullBody false)))) [] []) =
               dom (delete "knee_l" (dict_of (fullBody false)))) by reflexivity.
  assert (H2 : exists k, k ∈ required_markers false /\
                         delete "knee_l" (dict_of (fullBody false)) !! k = None).
  { exists "knee_l". split; vdecide. }
  split; [exact H1|]. split; [exact H2|].
  exact (createSkeleton_missing_marker _ false _ H1 H2).
Defined.

End SkeletonClaims.

Module SkeletonClaims2.
Import Skeleton SkeletonFacts SkeletonClaims.

Ltac half_err k Hk Hn :=
  exfalso;
  match goal with
  | Hh : Forall (fun n => is_Some (_ !! n)) (names (halfBody _)) |- _ =>
      apply (forall_present_elem _ k _ Hh); [eapply elem_of_incl; [exact Hk|vdecide] | exact Hn]
  end.

(** C1 (amended): on a half-body marker set (every base or spline-base
    marker and every left marker present, no right marker), [createSkeleton]
    does not succeed: after building root, pelvis, spine and all left
    chains, it fails with the missing-marker error ([KeyError]) for the
    first right-side name, [clavicle_r].  It never returns left chains
    alone. *)
Theorem createSkeleton_half_body (data : markerDict) (sp : bool) (s : scene) :
  markers s = dom data ->
  Forall (fun n => is_Some (data !! n)) (names (halfBody sp)) ->
  Forall (fun n => data !! n = None) (names Markers.defaultRightMarkers) ->
  createSkeleton data sp s = inl (KeyError "clavicle_r").
Proof.
  intros Hm0 Hhalf Hright.
  assert (Hm : markers s = dom data ∖ ∅) by (rewrite Hm0; set_solver).
  clear Hm0.
  assert (Hc : data !! "clavicle_r" = None).
  { rewrite Forall_forall in Hright. apply Hright. vdecide. }
  destruct sp; unfold createSkeleton; cbv beta iota zeta;
    repeat sk_step half_err;
    (match goal with
     | |- context [bind (createJointChainFromMarkers ?ns ?d ?p) ?k ?s] =>
         change ns with ("clavicle_r" :: drop 1 ns);
         exact (bind_inl _ _ _ _ (chain_head_missing d _ _ p s Hc))
     end).
Qed.

(** Counterexample to claim C1: on the half-body marker set of the markers
    tab (plain spine), the build does not return left-side chains; it
    stops with a [KeyError] on the first right-side marker. *)
Lemma createSkeleton_half_body_fails :
  createSkeleton (dict_of (halfBody false)) false (scene_of (halfBody false)) =
  inl (KeyError "clavicle_r").
Proof. vm_compute. reflexivity. Qed.

Lemma createSkeleton_half_body_witness :
  markers (scene_of (halfBody true)) = dom (dict_of (halfBody true)) /\
  Forall (fun n => is_Some (dict_of (halfBody true) !! n)) (names (halfBody true)) /\
  Forall (fun n => dict_of (halfBody true) !! n = None) (names Markers.defaultRightMarkers) /\
  createSkeleton (dict_of (halfBody true)) true (scene_of (halfBody true)) =
    inl (KeyError "clavicle_r").
Proof.
  assert (H1 : markers (scene_of (halfBody true)) = dom (dict_of (halfBody true))) by vdecide.
  assert (H2 : Forall (fun n => is_Some (dict_of (halfBody true) !! n))
                      (names (halfBody true))) by vdecide.
  assert (H3 : Forall (fun n => dict_of (halfBody true) !! n = None)
                      (names Markers.defaultRightMarkers)) by vdecide.
  split; [exact H1|]. split; [exact H2|]. split; [exact H3|].
  exact (createSkeleton_half_body _ true _ H1 H2 H3).
Defined.

(** C8 (amended): a successful [createSkeleton] creates, in this order and
    with these parents, exactly the joints of [skeleton_links]: root at
    world, pelvis under root, the spine chain under the pelvis, each arm
    chain under [spineJs[-3]] (the same index -3 in both topologies, i.e.
    [spine3] for the plain spine and [spine9] for the spline spine), the
    finger chains under the hand and the leg chains under the pelvis. *)
Theorem createSkeleton_structure (data : markerDict) (sp : bool) (s : scene)
    (h : handles) (s' : scene) :
  createSkeleton data sp s = inr (h, s') ->
  links s' = (links s ++ skeleton_links sp)%list /\
  py_index_neg (spineJs h) 3 = inr (spine_top sp).
Proof.
  intros H.
  destruct sp; unfold createSkeleton in H; cbv beta iota zeta in H;
    repeat (apply bind_inr_inv in H;
            let a := fresh "a" in let s1 := fresh "s" in let H1 := fresh "H" in
            destruct H as (a & s1 & H1 & H);
            first [ apply createJointFromMarker_success in H1 as (-> & ?Hl & _)
                  | apply chain_success in H1 as (-> & ?Hl & _)
                  | apply lift_inr_inv in H1 as (?Hr & ->);
                    match goal with
                    | Hr : py_index_neg _ _ = inr _ |- _ =>
                        vm_compute in Hr; injection Hr as <-
                    end ];
            cbv beta in H);
    unfold ret in H; injection H as <- <-;
    repeat match goal with
    | Hl : links ?x = _ |- context [links ?x] => rewrite Hl; clear Hl
    end;
    (split; [rewrite <- !app_assoc; f_equal; vm_compute; reflexivity
            | vm_compute; reflexivity]).
Qed.

(** Counterexample to claim C8: on the full plain-spine marker set, the
    arms hang under [spineJs[-3] = spine3] but the legs hang under the
    pelvis, the fingers under the hand, and the pelvis under the root. *)
Lemma createSkeleton_limbs_not_all_under_spine :
  match createSkeleton (dict_of (fullBody false)) false (scene_of (fullBody false)) with
  | inr (h, s') =>
      py_index_neg (spineJs h) 3 = inr "spine3" /\
      parent_in (joints s') "clavicle_l" = Some (Some "spine3") /\
      parent_in (joints s') "thigh_l" = Some (Some "pelvis") /\
      parent_in (joints s') "index1_l" = Some (Some "hand_l") /\
      parent_in (joints s') "pelvis" = Some (Some "root")
  | inl _ => False
  end.
Proof. vm_compute. repeat split. Qed.

Lemma createSkeleton_structure_witness :
  match createSkeleton (dict_of (fullBody true)) true (scene_of (fullBody true)) with
  | inr (h, s') =>
      createSkeleton (dict_of (fullBody true)) true (scene_of (fullBody true)) = inr (h, s') /\
      links s' = (links (scene_of (fullBody true)) ++ skeleton_links true)%list /\
      py_index_neg (spineJs h) 3 = inr (spine_top true)
  | inl _ => False
  end.
Proof.
  destruct (createSkeleton (dict_of (fullBody true)) true (scene_of (fullBody true)))
    as [e|[h s']] eqn:E.
  - vm_compute in E. discriminate.
  - split; [reflexivity|]. exact (createSkeleton_structure _ true _ h s' E).
Defined.

End SkeletonClaims2.

Lemma nth_error_lookup {A} (l : list A) (i : nat) : nth_error l i = l !! i.
Proof. revert i. induction l as [|x l IH]; intros [|i]; simpl; auto. Qed.

(** ** Snap solver ([FKIK.snapIKtoFK]) *)

Module Snap.

(** World transforms of the scene nodes, as read by [cmds.xform(..., q=True,
    ws=True, t=True)] (translation) and written by [cmds.matchTransform] and
    [cmds.move]. *)
Record scene : Type := mkScene {
  wpos : string -> vec3;
  wrot : string -> vec3
}.

Definition upd (f : string -> vec3) (k : string) (v : vec3) : string -> vec3 :=
  fun n => if String.eqb n k then v else f n.

(** [cmds.matchTransform(obj, target, pos=True, rot=True)] *)
Definition matchTransform (obj target : string) (s : scene) : scene :=
  mkScene (upd (wpos s) obj (wpos s target)) (upd (wrot s) obj (wrot s target)).

(** [cmds.move(x, y, z, obj)]: absolute move. *)
Definition move (p : vec3) (obj : string) (s : scene) : scene :=
  mkScene (upd (wpos s) obj p) (wrot s).

(** [l[i]] for [i >= 0]. *)
Definition py_nth {A} (l : list A) (i : nat) : exc + A :=
  match nth_error l i with Some a => inr a | None => inl IndexError end.

(** [meanPos = [(initPos[i] + finPos[i]) / 2 for i in range(3)]] *)
Definition snap_mean (initPos finPos : vec3) : vec3 :=
  let '(a0, a1, a2) := initPos in
  let '(b0, b1, b2) := finPos in
  ((a0 + b0) / 2, (a1 + b1) / 2, (a2 + b2) / 2)%Q.

(** [dir = [midPos[i] - meanPos[i] for i in range(3)]] *)
Definition snap_dir (midPos meanPos : vec3) : vec3 :=
  let '(m0, m1, m2) := midPos in
  let '(c0, c1, c2) := meanPos in
  (m0 - c0, m1 - c1, m2 - c2)%Q.

(** [pvPos = [midPos[i] + dir[i] * 2 for i in range(3)]] *)
Definition snap_pv (midPos dir : vec3) : vec3 :=
  let '(m0, m1, m2) := midPos in
  let '(d0, d1, d2) := dir in
  (m0 + d0 * 2, m1 + d1 * 2, m2 + d2 * 2)%Q.

(** [FKIK.snapIKtoFK(fkControls, ikControls, ikHandle, ikPv, offset)]. *)
Definition snapIKtoFK (fkControls ikControls : list string) (ikHandle ikPv : string)
  (offset : nat) (s : scene) : exc + scene :=
  match py_index_neg fkControls 1 with
  | inl e => inl e
  | inr last =>
      let s1 := matchTransform ikHandle last s in
      match py_nth fkControls (0 + offset), py_nth fkControls (1 + offset),
            py_index_neg fkControls 1 with
      | inr c0, inr c1, inr c2 =>
          let initPos := wpos s1 c0 in
          let midPos := wpos s1 c1 in
          let finPos := wpos s1 c2 in
          let meanPos := snap_mean initPos finPos in
          let dir := snap_dir midPos meanPos in
          let pvPos := snap_pv midPos dir in
          inr (move pvPos ikPv s1)
      | inl e, _, _ | _, inl e, _ | _, _, inl e => inl e
      end
  end.

(** The pole-vector target as the spec words it: [mean = (p0+p2)/2],
    [dir = p1 - mean], target [p1 + dir * 2]. *)
Definition pole_vector_target (p0 p1 p2 : vec3) : vec3 :=
  let '(x0, y0, z0) := p0 in
  let '(x1, y1, z1) := p1 in
  let '(x2, y2, z2) := p2 in
  let '(mx, my, mz) := ((x0 + x2) / 2, (y0 + y2) / 2, (z0 + z2) / 2)%Q in
  let '(dx, dy, dz) := (x1 - mx, y1 - my, z1 - mz)%Q in
  (x1 + dx * 2, y1 + dy * 2, z1 + dz * 2)%Q.

(** Componentwise equality of rational vectors. *)
Definition veq (u v : vec3) : Prop :=
  let '(u0, u1, u2) := u in let '(v0, v1, v2) := v in
  (u0 == v0 /\ u1 == v1 /\ u2 == v2)%Q.

(** The bent-knee scene of the spec: hip, knee and ankle FK controllers. *)
Definition knee_scene : scene :=
  mkScene (fun n => if String.eqb n "ctrl_hip" then (0, 10, 0)%Q
                    else if String.eqb n "ctrl_knee" then (0, 5, -2)%Q
                    else (0, 0, 0)%Q)
          (fun _ => (0, 0, 0)%Q).

Definition knee_fk : list string := ["ctrl_hip"; "ctrl_knee"; "ctrl_ankle"].

End Snap.

(** ** Mirroring of the marker catalog *)

Module Mirror.

(** [s] ends with [sfx]. *)
Definition ends_with (sfx s : string) : bool :=
  (String.length sfx <=? String.length s)%nat &&
  String.eqb (substring (String.length s - String.length sfx) (String.length sfx) s) sfx.

(** The name of the other side as the spec words it: the [_l] suffix
    replaced by [_r]. *)
Definition swap_side_suffix (n : string) : string :=
  if ends_with "_l" n then substring 0 (String.length n - 2) n ++ "_r" else n.

(** Mirroring a position through the YZ plane: X negated. *)
Definition mirrorX (p : vec3) : vec3 := let '(x, y, z) := p in (- x, y, z)%Q.

End Mirror.

(** ** FK rig builder ([class FK]) *)

Module FK.

(** The joint hierarchy under a joint, as [cmds.listRelatives(j, c=True,
    type='joint')] lists it: a finite, acyclic tree of named joints. *)
#[local] Set Warnings "-register-all".
Inductive jtree : Type := JNode (name : string) (kids : list jtree).

Definition jname (t : jtree) : string := let 'JNode n _ := t in n.

(** What the builder adds to the scene: the controllers, the offset
    groups with the controller each is parented under, and the
    [parentConstraint(controller, joint, mo=True)] links. *)
Record scene : Type := mkScene {
  controllers : list string;
  offsets : list (string * option string);
  constraints : list (string * string)
}.

Definition ctrl_name (j : string) : string := "ctrl_" ++ j.

(** [FK.createFKController(jName, pName)]: a circle [ctrl_<j>] under an
    offset group [ctrl_<j>_parent] aligned to the joint (the temporary
    point and orient constraints are deleted), the joint constrained to the
    controller, the offset parented under [ctrl_<pName>] if given. *)
Definition createFKController (jName : string) (pName : option string) (s : scene)
  : string * scene :=
  let controller := ctrl_name jName in
  let ctrlParent := controller ++ "_parent" in
  (controller,
   mkScene (controllers s ++l [controller])
           (offsets s ++l [(ctrlParent, option_map ctrl_name pName)])
           (constraints s ++l [(controller, jName)])).

(** [for kid in kids: controllers.extend(...)] *)
Fixpoint extend_kids (f : jtree -> scene -> list string * scene) (kids : list jtree)
  (s : scene) : list string * scene :=
  match kids with
  | [] => ([], s)
  | kid :: rest =>
      let '(cs, s1) := f kid s in
      let '(cs', s2) := extend_kids f rest s1 in
      (cs ++l cs', s2)
  end.

(** [FK.createFKCharacterControllers(rootJoint, parent, endJoint)]. *)
Fixpoint createFKCharacterControllers (rootJoint : jtree) (parent : option string)
  (endJoint : option string) (s : scene) : list string * scene :=
  let 'JNode j kids := rootJoint in
  let '(controller, s1) := createFKController j parent s in
  if decide (endJoint = Some j) then ([controller], s1)
  else
    let '(cs, s2) :=
      extend_kids (fun kid => createFKCharacterControllers kid (Some j) endJoint) kids s1 in
    (controller :: cs, s2).

(** The traversed range as the spec words it: the tree cut below
    [endJoint] (inclusive), listed in pre-order. *)
Fixpoint prune (endJoint : option string) (t : jtree) : jtree :=
  let 'JNode n kids := t in
  if decide (endJoint = Some n) then JNode n [] else JNode n (map (prune endJoint) kids).

Fixpoint preorder (t : jtree) : list string :=
  let 'JNode n kids := t in n :: concat (map preorder kids).

Fixpoint jsize (t : jtree) : nat :=
  let 'JNode _ kids := t in S (list_sum (map jsize kids)).

(** Induction on joint trees with a hypothesis for every child. *)
Lemma jtree_ind' (P : jtree -> Prop) :
  (forall n kids, Forall P kids -> P (JNode n kids)) -> forall t, P t.
Proof.
  intros Hn. fix IH 1. intros [n kids]. apply Hn.
  induction kids as [|k kids IHk]; constructor; [apply IH|apply IHk].
Qed.

Lemma extend_kids_fst (f : jtree -> scene -> list string * scene)
    (g : jtree -> list string) (kids : list jtree) (s : scene) :
  Forall (fun k => forall s, fst (f k s) = g k) kids ->
  fst (extend_kids f kids s) = concat (map g kids).
Proof.
  revert s. induction kids as [|k kids IH]; intros s Hall; [done|].
  apply Forall_cons in Hall as [Hk Hall]. simpl.
  destruct (f k s) as [cs s1] eqn:E. destruct (extend_kids f kids s1) as [cs' s2] eqn:E'.
  simpl. specialize (Hk s). rewrite E in Hk. simpl in Hk. subst cs.
  specialize (IH s1 Hall). rewrite E' in IH. simpl in IH. by subst cs'.
Qed.

Lemma length_preorder (t : jtree) : length (preorder t) = jsize t.
Proof.
  induction t as [n kids IH] using jtree_ind'. simpl. f_equal.
  rewrite length_concat, map_map. f_equal. apply map_ext_in.
  intros k Hk. rewrite Forall_forall in IH. apply IH. by apply list_elem_of_In.
Qed.

End FK.

(** ** Scale propagation reparenter ([AutoRiggerGUI.createUnifromScaling]) *)

Module Scale.

(** The DAG of the scene: every node in outliner order and its parent. *)
Record scene : Type := mkScene {
  order : list string;
  par : gmap string string
}.

(** [cmds.listRelatives(x, children=True)]: [None] when there is no child. *)
Definition children (s : scene) (x : string) : list string :=
  filter (fun n => par s !! n = Some x) (order s).

Definition listRelatives (s : scene) (x : string) : option (list string) :=
  match children s x with [] => None | l => Some l end.

(** [l.remove(x)]: drops the first occurrence, [ValueError] when absent. *)
Fixpoint py_remove (l : list string) (x : string) : exc + list string :=
  match l with
  | [] => inl (ValueError "list.remove(x): x not in list")
  | y :: rest =>
      if String.eqb y x then inr rest
      else match py_remove rest x with inl e => inl e | inr r => inr (y :: r) end
  end.

(** [cmds.parent(kid, p)]: [kid] becomes the last child of [p]. *)
Definition parent (kid p : string) (s : scene) : scene :=
  mkScene (filter (fun n => n <> kid) (order s) ++l [kid]) (<[kid := p]> (par s)).

(** [for kid in kids: cmds.parent(kid, p)] *)
Definition parent_all (kids : list string) (p : string) (s : scene) : scene :=
  fold_left (fun s kid => parent kid p s) kids s.

(** [AutoRiggerGUI.createUnifromScaling(rootCntrl, parentGrp)]. *)
Definition createUnifromScaling (rootCntrl parentGrp : string) (s : scene)
  : exc + scene :=
  match listRelatives s parentGrp with
  | None => inl (AttributeError "'NoneType' object has no attribute 'remove'")
  | Some parentKids =>
      match py_remove parentKids (rootCntrl ++ "_parent") with
      | inl e => inl e
      | inr parentKids =>
          let s1 := parent_all parentKids rootCntrl s in
          match listRelatives s1 (rootCntrl ++ "_parent") with
          | None => inl (AttributeError "'NoneType' object has no attribute 'remove'")
          | Some rootCntrlKids =>
              match py_remove rootCntrlKids rootCntrl with
              | inl e => inl e
              | inr rootCntrlKids => inr (parent_all rootCntrlKids rootCntrl s1)
              end
          end
      end
  end.

Lemma py_remove_spec (l : list string) (x : string) :
  NoDup l -> x ∈ l ->
  exists l', py_remove l x = inr l' /\ forall n, n ∈ l' <-> n ∈ l /\ n <> x.
Proof.
  induction l as [|y l IH]; intros Hnd Hx; [by apply not_elem_of_nil in Hx|].
  apply NoDup_cons in Hnd as [Hy Hnd]. simpl.
  destruct (String.eqb_spec y x) as [->|Hne].
  - exists l. split; [done|]. intros n. rewrite elem_of_cons.
    split; [intros Hn; split; [by right|intros ->; done] | intros [[->|Hn] Hne]; done].
  - apply elem_of_cons in Hx as [->|Hx]; [done|].
    destruct (IH Hnd Hx) as (l' & -> & Hl'). exists (y :: l'). split; [done|].
    intros n. rewrite !elem_of_cons, Hl'. split.
    + intros [->|[Hn Hnx]]; split; auto.
    + intros [[->|Hn] Hnx]; auto.
Qed.

Lemma parent_all_cons (k : string) (kids : list string) (p : string) (s : scene) :
  parent_all (k :: kids) p s = parent_all kids p (parent k p s).
Proof. reflexivity. Qed.

Lemma parent_all_par (kids : list string) (p : string) (s : scene) (n : string) :
  par (parent_all kids p s) !! n = if decide (n ∈ kids) then Some p else par s !! n.
Proof.
  revert s. induction kids as [|k kids IH]; intros s; [done|].
  rewrite parent_all_cons, IH. simpl.
  destruct (decide (n ∈ kids)) as [Hin|Hin];
    rewrite ?decide_True by (by right); [done|].
  destruct (decide (n = k)) as [->|Hne].
  - rewrite decide_True by left. by rewrite lookup_insert_eq.
  - rewrite decide_False by (rewrite elem_of_cons; tauto).
    by rewrite lookup_insert_ne by congruence.
Qed.

Lemma parent_all_order (kids : list string) (p : string) (s : scene) (n : string) :
  n ∈ order (parent_all kids p s) <-> n ∈ order s \/ n ∈ kids.
Proof.
  revert s. induction kids as [|k kids IH]; intros s.
  - simpl. rewrite elem_of_nil. tauto.
  - rewrite parent_all_cons, IH. simpl.
    rewrite elem_of_app, list_elem_of_filter, list_elem_of_singleton, elem_of_cons.
    destruct (decide (n = k)); tauto.
Qed.

Lemma parent_all_nodup (kids : list string) (p : string) (s : scene) :
  NoDup (order s) -> NoDup (order (parent_all kids p s)).
Proof.
  revert s. induction kids as [|k kids IH]; intros s Hnd; [done|].
  rewrite parent_all_cons. apply IH. simpl. apply NoDup_app. split; [by apply NoDup_filter|].
  split; [|apply NoDup_singleton].
  intros x Hx Hx'. apply list_elem_of_filter in Hx as [Hx _].
  apply list_elem_of_singleton in Hx'. done.
Qed.

Lemma children_spec (s : scene) (x n : string) :
  n ∈ children s x <-> par s !! n = Some x /\ n ∈ order s.
Proof. unfold children. by rewrite list_elem_of_filter. Qed.

Lemma listRelatives_some (s : scene) (x n : string) :
  n ∈ children s x -> listRelatives s x = Some (children s x).
Proof.
  unfold listRelatives. destruct (children s x); [by intros ?%not_elem_of_nil|done].
Qed.

Lemma string_length_app (a b : string) :
  String.length (a ++ b) = (String.length a + String.length b)%nat.
Proof. induction a as [|c a IH]; simpl; auto. Qed.

Lemma offset_name_neq (rc : string) : rc ++ "_parent" <> rc.
Proof.
  intros H. apply (f_equal String.length) in H.
  rewrite string_length_app in H. simpl in H. lia.
Qed.

(** A rig under [rig_grp]: the root controller's offset node next to a
    spine offset node, the root controller and a leg group under the offset. *)
Definition sample_rig : scene :=
  mkScene ["rig_grp"; "root_ctrl_parent"; "root_ctrl"; "spine_ctrl_parent"; "leg_grp"]
          (<["root_ctrl_parent" := "rig_grp"]> (<["root_ctrl" := "root_ctrl_parent"]>
           (<["spine_ctrl_parent" := "rig_grp"]> (<["leg_grp" := "root_ctrl_parent"]> ∅)))).

End Scale.

(** ** FK/IK switch builder ([FKIK.createFKIKSwitch]) *)

Module Switch.

(** An attribute [node.attr], kept as the pair of the node and the
    attribute's long name. *)
Abbreviation attr := (string * string)%type.

Record attr_flags : Type := mkFlags { locked : bool; keyable : bool; channelBox : bool }.

(** A transform channel or an [addAttr(..., k=True)] attribute: unlocked,
    keyable. *)
Definition keyable_flags : attr_flags := mkFlags false true false.
(** After [cmds.setAttr(a, l=True, k=False, cb=False)]. *)
Definition hidden_flags : attr_flags := mkFlags true false false.

(** The dependency graph: incoming connection of each attribute
    ([dst -> src]), static values, the [reverse] utility nodes, the orient
    constraints [(constraint, constrained node, targets)] and the channel
    flags. *)
Record dg : Type := mkDG {
  conns : gmap attr attr;
  vals : gmap attr Q;
  revs : list string;
  ocs : list (string * string * list string);
  flags : gmap attr attr_flags
}.

(** The scene commands [createFKIKSwitch] issues. *)
Inductive cmd : Type :=
  | CreateTransform (n : string)           (** [cmds.circle(n=...)] *)
  | AddAttr (a : attr) (v : Q)             (** [cmds.addAttr(..., k=True)] *)
  | OrientConstraint (oc : string) (targets : list string) (b : string)
  | CreateReverse (r : string)             (** [cmds.shadingNode('reverse', ...)] *)
  | ConnectAttr (src dst : attr)           (** [cmds.connectAttr(src, dst)] *)
  | LockAndHide (a : attr).                (** one attribute of [Helpers.lockAndHide] *)

(** The keyable channels of a new transform. *)
Definition transform_channels : list string :=
  ["translateX"; "translateY"; "translateZ"; "rotateX"; "rotateY"; "rotateZ";
   "scaleX"; "scaleY"; "scaleZ"; "visibility"].

(** Maya's long names of the short channel names. *)
Definition long_name (a : string) : string :=
  match a with
  | "tx" => "translateX" | "ty" => "translateY" | "tz" => "translateZ"
  | "rx" => "rotateX" | "ry" => "rotateY" | "rz" => "rotateZ"
  | "sx" => "scaleX" | "sy" => "scaleY" | "sz" => "scaleZ"
  | "v" => "visibility"
  | _ => a
  end%string.

Fixpoint weight_values (oc : string) (i : nat) (targets : list string) : gmap attr Q -> gmap attr Q :=
  match targets with
  | [] => fun m => m
  | _ :: rest => fun m => weight_values oc (S i) rest (<[(oc, "w" ++ pretty i) := 1%Q]> m)
  end.

Definition exec_cmd (g : dg) (c : cmd) : dg :=
  match c with
  | CreateTransform n =>
      mkDG (conns g) (vals g) (revs g) (ocs g)
           (foldr (fun a m => <[(n, a) := keyable_flags]> m) (flags g) transform_channels)
  | AddAttr a v =>
      mkDG (conns g) (<[a := v]> (vals g)) (revs g) (ocs g) (<[a := keyable_flags]> (flags g))
  | OrientConstraint oc targets b =>
      mkDG (conns g) (weight_values oc 0 targets (vals g)) (revs g)
           (ocs g ++l [(oc, b, targets)]) (flags g)
  | CreateReverse r => mkDG (conns g) (vals g) (revs g ++l [r]) (ocs g) (flags g)
  | ConnectAttr src dst => mkDG (<[dst := src]> (conns g)) (vals g) (revs g) (ocs g) (flags g)
  | LockAndHide a => mkDG (conns g) (vals g) (revs g) (ocs g) (<[a := hidden_flags]> (flags g))
  end.

Definition exec (cs : list cmd) (g : dg) : dg := fold_left exec_cmd cs g.

(** [cmds.setAttr(a, v)] *)
Definition setAttr (g : dg) (a : attr) (v : Q) : dg :=
  mkDG (conns g) (<[a := v]> (vals g)) (revs g) (ocs g) (flags g).

(** Evaluation of an attribute: through its incoming connection, through a
    [reverse] node ([outputX = 1 - inputX]), or its static value (0 when
    unset).  [fuel] bounds the depth of the (acyclic) graph walked. *)
Fixpoint eval (fuel : nat) (g : dg) (a : attr) : Q :=
  match fuel with
  | O => 0%Q
  | S fuel' =>
      match conns g !! a with
      | Some src => eval fuel' g src
      | None =>
          if bool_decide (a.2 = "outputX" /\ a.1 ∈ revs g)
          then 1 - eval fuel' g (a.1, "inputX")
          else default 0%Q (vals g !! a)
      end
  end.

(** Maya's name of the first orient constraint on [b]. *)
Definition oc_name (b : string) : string := b ++ "_orientConstraint1".
Definition reverse_name (b : string) : string := "reverse_" ++ b.

Fixpoint zip3 {A B C} (l1 : list A) (l2 : list B) (l3 : list C) : list (A * B * C) :=
  match l1, l2, l3 with
  | a :: r1, b :: r2, c :: r3 => (a, b, c) :: zip3 r1 r2 r3
  | _, _, _ => []
  end.

(** The body of [for fk, ik, b in zip(fkChain, ikChain, bindChain)]. *)
Definition blend_cmds (switchCtrl : string) (x : string * string * string) : list cmd :=
  let '(fk, ik, b) := x in
  let oc := oc_name b in
  let reverseNode := reverse_name b in
  [ OrientConstraint oc [fk; ik] b;
    ConnectAttr (switchCtrl, "FKIK_Switch") (oc, "w1");
    CreateReverse reverseNode;
    ConnectAttr (switchCtrl, "FKIK_Switch") (reverseNode, "inputX");
    ConnectAttr (reverseNode, "outputX") (oc, "w0") ].

(** The commands of [createFKIKSwitch] after the blend loop. *)
Definition visibility_cmds (switchCtrl switchName : string) (fkCntrls : list string)
    (startCntrl ikCntrl pvCntrl : string) : list cmd :=
  let reverseVis := switchName ++ "_reverseVis" in
  [CreateReverse reverseVis; ConnectAttr (switchCtrl, "FKIK_Switch") (reverseVis, "inputX")] ++l
  map (fun fkCntrl => ConnectAttr (reverseVis, "outputX") (fkCntrl, "visibility")) fkCntrls ++l
  [ ConnectAttr (switchCtrl, "FKIK_Switch") (startCntrl, "visibility");
    ConnectAttr (switchCtrl, "FKIK_Switch") (ikCntrl, "visibility");
    ConnectAttr (switchCtrl, "FKIK_Switch") (pvCntrl, "visibility") ] ++l
  map (fun a => LockAndHide (switchCtrl, long_name a))
      ["tx"; "ty"; "tz"; "rx"; "ry"; "rz"; "sx"; "sy"; "sz"].

(** The commands of [createFKIKSwitch] once [bindChain[-1]] exists. *)
Definition switch_cmds (fkChain ikChain bindChain fkCntrls : list string)
    (startCntrl ikCntrl pvCntrl switchName : string) : list cmd :=
  let switchCtrl := switchName in
  [CreateTransform switchCtrl; AddAttr (switchCtrl, "FKIK_Switch") 0%Q] ++l
  concat (map (blend_cmds switchCtrl) (zip3 fkChain ikChain bindChain)) ++l
  visibility_cmds switchCtrl switchName fkCntrls startCntrl ikCntrl pvCntrl.

(** [FKIK.createFKIKSwitch(fkChain, ikChain, bindChain, fkCntrls, startCntrl,
    ikCntrl, pvCntrl, switchName)].  The circle's colour and line width and
    its snap onto [bindChain[-1]] (a deleted parent constraint) do not touch
    the graph modelled here; [bindChain[-1]] raises on an empty chain. *)
Definition createFKIKSwitch (fkChain ikChain bindChain fkCntrls : list string)
    (startCntrl ikCntrl pvCntrl switchName : string) (g : dg) : exc + (string * dg) :=
  match py_index_neg bindChain 1 with
  | inl e => inl e
  | inr _ =>
      inr (switchName,
           exec (switch_cmds fkChain ikChain bindChain fkCntrls startCntrl ikCntrl pvCntrl
                             switchName) g)
  end.

(** The empty scene. *)
Definition empty_dg : dg := mkDG ∅ ∅ [] [] ∅.

(** A three-joint leg: FK, IK and bind chains and the FK controllers. *)
Definition leg_fk : list string := ["fk_thigh"; "fk_knee"; "fk_ankle"].
Definition leg_ik : list string := ["ik_thigh"; "ik_knee"; "ik_ankle"].
Definition leg_bind : list string := ["thigh"; "knee"; "ankle"].
Definition leg_fkCntrls : list string := ["fk_thigh_ctrl"; "fk_knee_ctrl"; "fk_ankle_ctrl"].

End Switch.

Module SnapMirrorClaims.
Import Snap Mirror.

(** C2: whenever [snapIKtoFK] is called with offset [o] on a list of FK
    controllers holding positions [o] and [o+1] (the IK handle not being one
    of them), it succeeds and moves the pole-vector controller to exactly
    [p1 + dir * 2] with [mean = (p0+p2)/2] and [dir = p1 - mean], where
    [p0], [p1], [p2] are the world positions of [fkControls[o]],
    [fkControls[o+1]] and the last FK controller. *)
Theorem snapIKtoFK_pole_vector (fk ikc : list string) (h pv : string) (o : nat)
    (s : scene) (c0 c1 cl : string) :
  nth_error fk o = Some c0 ->
  nth_error fk (S o) = Some c1 ->
  last fk = Some cl ->
  ~ In h fk ->
  exists s', snapIKtoFK fk ikc h pv o s = inr s' /\
             wpos s' pv = pole_vector_target (wpos s c0) (wpos s c1) (wpos s cl).
Proof.
  intros H0 H1 Hl Hh.
  assert (Hlast : py_index_neg fk 1 = inr cl).
  { unfold py_index_neg. rewrite last_lookup, <- nth_error_lookup in Hl.
    assert (length fk <> 0)%nat by (destruct fk; simpl in *; congruence).
    rewrite decide_True by lia.
    replace (length fk - 1)%nat with (Init.Nat.pred (length fk)) by lia.
    by rewrite Hl. }
  assert (Hin : forall c i, nth_error fk i = Some c -> c <> h).
  { intros c i Hc ->. apply Hh. by eapply nth_error_In. }
  assert (Hl' : nth_error fk (Init.Nat.pred (length fk)) = Some cl)
    by by rewrite nth_error_lookup, <- last_lookup.
  unfold snapIKtoFK. rewrite Hlast. unfold py_nth. simpl (0 + o)%nat. simpl (1 + o)%nat.
  rewrite H0, H1.
  eexists; split; [reflexivity|].
  unfold move, matchTransform, upd; simpl.
  rewrite String.eqb_refl.
  rewrite (proj2 (String.eqb_neq c0 h) (Hin _ _ H0)),
          (proj2 (String.eqb_neq c1 h) (Hin _ _ H1)),
          (proj2 (String.eqb_neq cl h) (Hin _ _ Hl')).
  destruct (wpos s c0) as [[x0 y0] z0], (wpos s c1) as [[x1 y1] z1],
           (wpos s cl) as [[x2 y2] z2].
  reflexivity.
Qed.

Lemma snapIKtoFK_pole_vector_witness :
  nth_error knee_fk 0 = Some "ctrl_hip" /\ nth_error knee_fk 1 = Some "ctrl_knee" /\
  last knee_fk = Some "ctrl_ankle" /\ ~ In "leg_ik" knee_fk /\
  exists s', snapIKtoFK knee_fk ["ik_hip"; "ik_knee"; "ik_ankle"] "leg_ik" "leg_pv" 0
               knee_scene = inr s' /\
             wpos s' "leg_pv" =
               pole_vector_target (wpos knee_scene "ctrl_hip") (wpos knee_scene "ctrl_knee")
                                  (wpos knee_scene "ctrl_ankle").
Proof.
  assert (H4 : ~ In "leg_ik" knee_fk) by (simpl; intuition discriminate).
  split; [reflexivity|]. split; [reflexivity|]. split; [reflexivity|]. split; [exact H4|].
  exact (snapIKtoFK_pole_vector knee_fk ["ik_hip"; "ik_knee"; "ik_ankle"] "leg_ik" "leg_pv" 0
           knee_scene "ctrl_hip" "ctrl_knee" "ctrl_ankle" eq_refl eq_refl eq_refl H4).
Defined.

(** C3 (counterexample): on the bent-knee input [p0=(0,10,0)],
    [p1=(0,5,-2)], [p2=(0,0,0)] with offset 0, the pole-vector controller
    is not moved to [(0,5,-4)]. *)
Lemma snapIKtoFK_knee_not_0_5_m4 :
  match snapIKtoFK knee_fk [] "leg_ik" "ctrl_leg_pv" 0 knee_scene with
  | inr s' => ~ veq (wpos s' "ctrl_leg_pv") (0, 5, -4)%Q
  | inl _ => False
  end.
Proof. vm_compute. intros (_ & _ & H). discriminate H. Qed.

(** C3 (amended): on the bent-knee input [p0=(0,10,0)], [p1=(0,5,-2)],
    [p2=(0,0,0)] with offset 0, [snapIKtoFK] computes [mean=(0,5,0)] and
    [dir=(0,0,-2)] and moves the pole-vector controller to
    [p1 + dir * 2 = (0,5,-6)]. *)
Theorem snapIKtoFK_knee :
  let p0 := wpos knee_scene "ctrl_hip" in
  let p1 := wpos knee_scene "ctrl_knee" in
  let p2 := wpos knee_scene "ctrl_ankle" in
  veq (snap_mean p0 p2) (0, 5, 0)%Q /\
  veq (snap_dir p1 (snap_mean p0 p2)) (0, 0, -2)%Q /\
  exists s', snapIKtoFK knee_fk [] "leg_ik" "ctrl_leg_pv" 0 knee_scene = inr s' /\
             veq (wpos s' "ctrl_leg_pv") (0, 5, -6)%Q.
Proof.
  cbv zeta. split; [vm_compute; auto|]. split; [vm_compute; auto|].
  eexists; split; [reflexivity|]. vm_compute. auto.
Qed.

Lemma mirrorX_involutive (p : vec3) : mirrorX (mirrorX p) = p.
Proof.
  destruct p as [[[n d] y] z]. unfold mirrorX, Qopp. simpl.
  by rewrite Z.opp_involutive.
Qed.

(** C5: [defaultRightMarkers] maps each left marker [(name, (x,y,z))] to
    [(name with its _l suffix replaced by _r, (-x,y,z))] (every left name
    ends in [_l]); mirroring is an involution on positions, and mirroring
    the right markers again gives back every left position. *)
Theorem defaultRightMarkers_mirror :
  Markers.defaultRightMarkers =
    map (fun '(n, p) => (swap_side_suffix n, mirrorX p)) Markers.defaultLeftMarkers /\
  Forall (fun m => ends_with "_l" (fst m) = true) Markers.defaultLeftMarkers /\
  (forall p, mirrorX (mirrorX p) = p) /\
  map (fun m => mirrorX (snd m)) Markers.defaultRightMarkers =
    map snd Markers.defaultLeftMarkers.
Proof.
  split; [vm_compute; reflexivity|].
  split; [vm_compute; repeat constructor|].
  split; [exact mirrorX_involutive|].
  unfold Markers.defaultRightMarkers. rewrite map_map. apply map_ext.
  intros [n [[x y] z]]. simpl. apply (mirrorX_involutive (x, y, z)).
Qed.

End SnapMirrorClaims.

Module FKClaims.
Import FK.

(** C6: [createFKCharacterControllers] (a structural recursion, hence
    terminating on every finite acyclic joint tree) returns the controllers
    of the joints of the traversed range (the tree cut below [endJoint],
    inclusive) in pre-order, each controller before those of its child
    joints; their number is the number of joints in that range; and when
    [rootJoint == endJoint] it returns exactly one controller. *)
Theorem createFKCharacterControllers_preorder (t : jtree) (parent endJoint : option string)
    (s : scene) :
  fst (createFKCharacterControllers t parent endJoint s) =
    map ctrl_name (preorder (prune endJoint t)) /\
  length (fst (createFKCharacterControllers t parent endJoint s)) =
    jsize (prune endJoint t) /\
  length (fst (createFKCharacterControllers t parent (Some (jname t)) s)) = 1%nat.
Proof.
  assert (Hpre : forall t parent s,
    fst (createFKCharacterControllers t parent endJoint s) =
    map ctrl_name (preorder (prune endJoint t))).
  { intros t'. induction t' as [n kids IH] using jtree_ind'; intros p s'.
    simpl. destruct (decide (endJoint = Some n)) as [He|He]; [done|].
    destruct (extend_kids _ kids _) as [cs s2] eqn:E. simpl.
    f_equal.
    assert (Hf := extend_kids_fst
      (fun kid => createFKCharacterControllers kid (Some n) endJoint)
      (fun kid => map ctrl_name (preorder (prune endJoint kid))) kids
      {| controllers := controllers s' ++l [ctrl_name n];
         offsets := offsets s' ++l [(ctrl_name n ++ "_parent", option_map ctrl_name p)];
         constraints := constraints s' ++l [(ctrl_name n, n)] |}).
    rewrite E in Hf. simpl in Hf. rewrite Hf.
    - rewrite map_map, concat_map, map_map. reflexivity.
    - apply Forall_forall. intros k Hk s''. rewrite Forall_forall in IH. by apply IH. }
  split; [apply Hpre|]. split.
  - rewrite Hpre, length_map. apply length_preorder.
  - destruct t as [n kids]. simpl. by rewrite decide_True.
Qed.

End FKClaims.

Module ScaleClaims.
Import Scale.

(** C9: [createUnifromScaling(rootCntrl, parentGrp)], called on a rig whose
    top group [parentGrp] holds the root controller's offset node
    [rootCntrl_parent], which holds [rootCntrl] (a well-formed tree: every
    parented node is in the outliner, no node listed twice, the three nodes
    distinct), succeeds and
    - re-parents every other child of the top group directly under
      [rootCntrl];
    - re-parents every child of the offset node other than [rootCntrl]
      directly under [rootCntrl];
    - leaves the offset node as the only child of the top group (one
      ownership level between the two), [rootCntrl] under its offset node,
      and every other node's parent unchanged. *)
Theorem createUnifromScaling_flatten (rootCntrl parentGrp : string) (s : scene) :
  let off := rootCntrl ++ "_parent" in
  par s !! off = Some parentGrp ->
  par s !! rootCntrl = Some off ->
  off <> parentGrp ->
  rootCntrl <> parentGrp ->
  NoDup (order s) ->
  (forall n p, par s !! n = Some p -> n ∈ order s) ->
  exists s', createUnifromScaling rootCntrl parentGrp s = inr s' /\
    (forall k, par s !! k = Some parentGrp -> k <> off -> par s' !! k = Some rootCntrl) /\
    (forall k, par s !! k = Some off -> k <> rootCntrl -> par s' !! k = Some rootCntrl) /\
    par s' !! off = Some parentGrp /\
    (forall k, par s' !! k = Some parentGrp -> k = off) /\
    par s' !! rootCntrl = Some off /\
    (forall k, par s !! k <> Some parentGrp -> par s !! k <> Some off ->
               par s' !! k = par s !! k).
Proof.
  intros off H1 H2 Hog Hrg Hnd Hwf.
  assert (Hro : off <> rootCntrl) by apply offset_name_neq.
  assert (Hc1 : off ∈ children s parentGrp)
    by (apply children_spec; split; [done|by eapply Hwf]).
  destruct (py_remove_spec (children s parentGrp) off (NoDup_filter _ _ Hnd) Hc1)
    as (kids & Hrm1 & Hkids).
  assert (Hk : forall n, n ∈ kids <-> par s !! n = Some parentGrp /\ n <> off).
  { intros n. rewrite Hkids, children_spec.
    split; [tauto|]. intros [Hp Hn]. split; [split; [done|by eapply Hwf]|done]. }
  assert (Hp1 : forall n, par (parent_all kids rootCntrl s) !! n =
                 if decide (n ∈ kids) then Some rootCntrl else par s !! n)
    by (intros n; apply parent_all_par).
  assert (Hrk : rootCntrl ∉ kids) by (rewrite Hk; intros [H _]; congruence).
  assert (Hc2 : rootCntrl ∈ children (parent_all kids rootCntrl s) off).
  { apply children_spec. rewrite Hp1, decide_False by done. split; [done|].
    apply parent_all_order. left. by eapply Hwf. }
  destruct (py_remove_spec (children (parent_all kids rootCntrl s) off) rootCntrl
              (NoDup_filter _ _ (parent_all_nodup _ _ _ Hnd)) Hc2)
    as (kids2 & Hrm2 & Hkids2).
  assert (Hk2 : forall n, n ∈ kids2 <->
                  (n ∉ kids) /\ par s !! n = Some off /\ n <> rootCntrl).
  { intros n. rewrite Hkids2, children_spec, Hp1, parent_all_order.
    destruct (decide (n ∈ kids)) as [Hn|Hn].
    - split; [intros [[[= Heq] _] _]; congruence|tauto].
    - split; [tauto|]. intros (_ & Hp & Hn'). split; [|done].
      split; [done|]. left. by eapply Hwf. }
  exists (parent_all kids2 rootCntrl (parent_all kids rootCntrl s)).
  split.
  { unfold createUnifromScaling. unfold off in *.
    rewrite (listRelatives_some _ _ _ Hc1), Hrm1.
    by rewrite (listRelatives_some _ _ _ Hc2), Hrm2. }
  assert (Hp2 : forall n, par (parent_all kids2 rootCntrl (parent_all kids rootCntrl s)) !! n =
                 if decide (n ∈ kids2) then Some rootCntrl
                 else if decide (n ∈ kids) then Some rootCntrl else par s !! n).
  { intros n. by rewrite parent_all_par, Hp1. }
  split; [|split; [|split; [|split; [|split]]]].
  - intros k Hkg Hko. rewrite Hp2.
    destruct (decide (k ∈ kids2)); [done|]. by rewrite decide_True by (by apply Hk).
  - intros k Hko Hkr. rewrite Hp2.
    assert (k ∉ kids) by (rewrite Hk; intros [H _]; congruence).
    by rewrite decide_True by (apply Hk2; tauto).
  - rewrite Hp2.
    rewrite decide_False by (rewrite Hk2; intros (_ & H & _); congruence).
    by rewrite decide_False by (rewrite Hk; tauto).
  - intros k. rewrite Hp2.
    destruct (decide (k ∈ kids2)); [congruence|].
    destruct (decide (k ∈ kids)); [congruence|].
    intros Hkg. destruct (decide (k = off)) as [->|Hne]; [done|].
    exfalso. apply n0. by apply Hk.
  - rewrite Hp2.
    rewrite decide_False by (rewrite Hk2; tauto).
    by rewrite decide_False.
  - intros k Hkg Hko. rewrite Hp2.
    rewrite decide_False by (rewrite Hk2; tauto).
    by rewrite decide_False by (rewrite Hk; tauto).
Qed.

Lemma createUnifromScaling_flatten_witness :
  par sample_rig !! ("root_ctrl" ++ "_parent") = Some "rig_grp" /\
  par sample_rig !! "root_ctrl" = Some ("root_ctrl" ++ "_parent") /\
  "root_ctrl" ++ "_parent" <> "rig_grp" /\ "root_ctrl" <> "rig_grp" /\
  NoDup (order sample_rig) /\
  (forall n p, par sample_rig !! n = Some p -> n ∈ order sample_rig) /\
  exists s', createUnifromScaling "root_ctrl" "rig_grp" sample_rig = inr s' /\
    (forall k, par sample_rig !! k = Some "rig_grp" -> k <> "root_ctrl" ++ "_parent" ->
               par s' !! k = Some "root_ctrl") /\
    (forall k, par sample_rig !! k = Some ("root_ctrl" ++ "_parent") -> k <> "root_ctrl" ->
               par s' !! k = Some "root_ctrl") /\
    par s' !! ("root_ctrl" ++ "_parent") = Some "rig_grp" /\
    (forall k, par s' !! k = Some "rig_grp" -> k = "root_ctrl" ++ "_parent") /\
    par s' !! "root_ctrl" = Some ("root_ctrl" ++ "_parent") /\
    (forall k, par sample_rig !! k <> Some "rig_grp" ->
               par sample_rig !! k <> Some ("root_ctrl" ++ "_parent") ->
               par s' !! k = par sample_rig !! k).
Proof.
  assert (H1 : par sample_rig !! ("root_ctrl" ++ "_parent") = Some "rig_grp") by reflexivity.
  assert (H2 : par sample_rig !! "root_ctrl" = Some ("root_ctrl" ++ "_parent")) by reflexivity.
  assert (H3 : "root_ctrl" ++ "_parent" <> "rig_grp") by discriminate.
  assert (H4 : "root_ctrl" <> "rig_grp") by discriminate.
  assert (H5 : NoDup (order sample_rig))
    by (apply (bool_decide_unpack _); vm_compute; exact I).
  assert (H6 : forall n p, par sample_rig !! n = Some p -> n ∈ order sample_rig).
  { assert (Hm : map_Forall (fun n _ => n ∈ order sample_rig) (par sample_rig))
      by (apply (bool_decide_unpack _); vm_compute; exact I).
    intros n p Hn. exact (Hm n p Hn). }
  do 6 (split; [assumption|]).
  exact (createUnifromScaling_flatten "root_ctrl" "rig_grp" sample_rig H1 H2 H3 H4 H5 H6).
Defined.

End ScaleClaims.

Module SwitchFacts.
Import Switch.

Definition sw (swc : string) : attr := (swc, "FKIK_Switch").

(** No connection feeds a [reverse] output or the switch attribute. *)
Definition Inv0 (swc : string) (g : dg) : Prop :=
  (forall n, conns g !! (n, "outputX") = None) /\ conns g !! sw swc = None.
(** [n.w1] is driven by the switch. *)
Definition W1 (swc n : string) (g : dg) : Prop := conns g !! (n, "w1") = Some (sw swc).
(** [n.w0] is driven by a [reverse] node whose input is the switch. *)
Definition W0 (swc n : string) (g : dg) : Prop :=
  exists r, conns g !! (n, "w0") = Some (r, "outputX") /\ r ∈ revs g /\
            conns g !! (r, "inputX") = Some (sw swc).

Definition preserves (swc : string) (g g' : dg) : Prop :=
  (Inv0 swc g -> Inv0 swc g') /\ (forall n, W1 swc n g -> W1 swc n g') /\
  (forall n, W0 swc n g -> W0 swc n g') /\ (forall x, x ∈ ocs g -> x ∈ ocs g').

Lemma preserves_refl swc g : preserves swc g g.
Proof. split; [|split; [|split]]; auto. Qed.

Lemma preserves_trans swc g1 g2 g3 :
  preserves swc g1 g2 -> preserves swc g2 g3 -> preserves swc g1 g3.
Proof. intros (?&?&?&?) (?&?&?&?). split; [|split; [|split]]; auto. Qed.

(** Commands that write no weight, no [reverse] output and no switch
    attribute, and feed a [reverse] input only from the switch. *)
Definition harmless (swc : string) (c : cmd) : Prop :=
  match c with
  | ConnectAttr src dst =>
      dst.2 <> "w1" /\ dst.2 <> "w0" /\ dst.2 <> "outputX" /\ dst.2 <> "FKIK_Switch" /\
      (dst.2 = "inputX" -> src = sw swc)
  | _ => True
  end.

Lemma exec_app cs1 cs2 g : exec (cs1 ++l cs2) g = exec cs2 (exec cs1 g).
Proof. unfold exec. by rewrite fold_left_app. Qed.

Lemma exec_cons c cs g : exec (c :: cs) g = exec cs (exec_cmd g c).
Proof. reflexivity. Qed.

Lemma elem_of_app_l {A} (x : A) l1 l2 : x ∈ l1 -> x ∈ (l1 ++l l2).
Proof. intros. apply elem_of_app. by left. Qed.

Ltac psplit := split; [|split; [|split]].

Lemma harmless_step swc g c : harmless swc c -> preserves swc g (exec_cmd g c).
Proof.
  destruct c as [n|a v|oc ts b|r|src [dn da]|a]; simpl; intros Hh;
    try (psplit; auto; fail).
  - psplit; auto. intros x Hx. by apply elem_of_app_l.
  - psplit; auto; unfold W0; simpl.
    intros n (r' & H1 & H2 & H3). exists r'. split; [done|]. split; [|done].
    by apply elem_of_app_l.
  - destruct Hh as (H1 & H0 & Ho & Hs & Hi). simpl in *.
    psplit; unfold Inv0, W1, W0, sw; simpl.
    + intros [Hout Hsw]. split.
      * intros n. rewrite lookup_insert_ne; [auto| congruence].
      * rewrite lookup_insert_ne; [auto| congruence].
    + intros n Hn. rewrite lookup_insert_ne; [auto| congruence].
    + intros n (r' & Hr1 & Hr2 & Hr3). exists r'.
      rewrite lookup_insert_ne; [|congruence]. split; [done|]. split; [done|].
      destruct (decide ((dn, da) = (r', "inputX"))) as [E|E].
      * injection E as -> ->. rewrite lookup_insert_eq. f_equal. by apply Hi.
      * by rewrite lookup_insert_ne.
    + auto.
Qed.

Lemma exec_harmless swc cs g : Forall (harmless swc) cs -> preserves swc g (exec cs g).
Proof.
  revert g. induction cs as [|c cs IH]; intros g Hf.
  - apply preserves_refl.
  - inversion Hf; subst. rewrite exec_cons.
    eapply preserves_trans; [by apply harmless_step|]. by apply IH.
Qed.


Lemma blend_block swc fk ik b g :
  let g' := exec (blend_cmds swc (fk, ik, b)) g in
  preserves swc g g' /\ W1 swc (oc_name b) g' /\ W0 swc (oc_name b) g' /\
  (oc_name b, b, [fk; ik]) ∈ ocs g'.
Proof.
  cbn [blend_cmds exec fold_left exec_cmd conns revs ocs vals flags].
  set (oc := oc_name b). set (rv := reverse_name b).
  unfold preserves, Inv0, W1, W0, sw; cbn [conns revs ocs].
  split; [split; [|split; [|split]]|split; [|split]].
  - intros [Hout Hsw]. split.
    + intros n. rewrite !lookup_insert_ne; [auto|congruence..].
    + rewrite !lookup_insert_ne; [auto|congruence..].
  - intros n Hn. rewrite lookup_insert_ne; [|congruence].
    rewrite lookup_insert_ne; [|congruence].
    destruct (decide (n = oc)) as [->|E]; [by rewrite lookup_insert_eq|].
    rewrite lookup_insert_ne; [done|congruence].
  - intros n (r & Hr1 & Hr2 & Hr3).
    destruct (decide (n = oc)) as [->|E].
    + exists rv. rewrite lookup_insert_eq. split; [done|]. split.
      * apply elem_of_app. right. by apply list_elem_of_singleton.
      * rewrite lookup_insert_ne; [|congruence]. by rewrite lookup_insert_eq.
    + exists r. rewrite lookup_insert_ne; [|congruence].
      rewrite lookup_insert_ne; [|congruence].
      rewrite lookup_insert_ne; [|congruence].
      split; [done|]. split; [by apply elem_of_app_l|].
      rewrite lookup_insert_ne; [|congruence].
      destruct (decide (r = rv)) as [->|E'].
      * by rewrite lookup_insert_eq.
      * rewrite lookup_insert_ne; [|congruence].
        rewrite lookup_insert_ne; [done|congruence].
  - intros x Hx. by apply elem_of_app_l.
  - rewrite lookup_insert_ne; [|congruence].
    rewrite lookup_insert_ne; [|congruence]. by rewrite lookup_insert_eq.
  - exists rv. rewrite lookup_insert_eq. split; [done|]. split.
    + apply elem_of_app. right. by apply list_elem_of_singleton.
    + rewrite lookup_insert_ne; [|congruence]. by rewrite lookup_insert_eq.
  - apply elem_of_app. right. by apply list_elem_of_singleton.
Qed.

Lemma blend_loop swc xs g :
  let g' := exec (concat (map (blend_cmds swc) xs)) g in
  preserves swc g g' /\
  forall i fk ik b, nth_error xs i = Some (fk, ik, b) ->
    W1 swc (oc_name b) g' /\ W0 swc (oc_name b) g' /\ (oc_name b, b, [fk; ik]) ∈ ocs g'.
Proof.
  revert g. induction xs as [|[[fk ik] b] xs IH]; intros g; cbn [map concat].
  - split; [apply preserves_refl|]. intros [|i]; discriminate.
  - rewrite exec_app.
    destruct (blend_block swc fk ik b g) as (Hp & H1 & H0 & Ho).
    destruct (IH (exec (blend_cmds swc (fk, ik, b)) g)) as [Hp' Hi].
    split; [by eapply preserves_trans|].
    intros [|i] fk' ik' b' E.
    + injection E as <- <- <-. destruct Hp' as (_ & P1 & P0 & Po). auto.
    + by apply (Hi i).
Qed.

Lemma visibility_harmless swc swn fkCntrls st ikc pv :
  Forall (harmless swc) (visibility_cmds swc swn fkCntrls st ikc pv).
Proof.
  unfold visibility_cmds. repeat apply Forall_app_2.
  - repeat constructor; simpl; try discriminate; auto.
  - apply Forall_forall. intros c Hc. apply list_elem_of_In, in_map_iff in Hc.
    destruct Hc as (f & <- & _). simpl. repeat split; discriminate.
  - repeat constructor; simpl; discriminate.
  - repeat constructor.
Qed.

(** Reading a weight wired by the builder after setting the switch. *)
Lemma eval_w1 swc n g w fuel :
  Inv0 swc g -> W1 swc n g -> (2 <= fuel)%nat ->
  eval fuel (setAttr g (sw swc) w) (n, "w1") = w.
Proof.
  intros [_ Hsw] H1 Hf. destruct fuel as [|[|fuel]]; [lia|lia|].
  unfold W1 in H1. simpl. unfold setAttr at 1. simpl. rewrite H1. simpl.
  rewrite Hsw. simpl. unfold sw. by rewrite lookup_insert_eq.
Qed.

Lemma eval_w0 swc n g w fuel :
  Inv0 swc g -> W0 swc n g -> (4 <= fuel)%nat ->
  eval fuel (setAttr g (sw swc) w) (n, "w0") = (1 - w)%Q.
Proof.
  intros [Hout Hsw] (r & H0 & Hr & Hi) Hf.
  destruct fuel as [|[|[|[|fuel]]]]; try lia.
  simpl. rewrite H0. simpl. rewrite Hout.
  rewrite bool_decide_true; [|by split]. simpl. rewrite Hi. simpl. rewrite Hsw. simpl.
  unfold sw. by rewrite lookup_insert_eq.
Qed.

(** Commands that leave every channel flag alone. *)
Definition flagfree (c : cmd) : Prop :=
  match c with
  | CreateTransform _ | AddAttr _ _ | LockAndHide _ => False
  | _ => True
  end.

Lemma exec_flagfree cs g : Forall flagfree cs -> flags (exec cs g) = flags g.
Proof.
  revert g. induction cs as [|c cs IH]; intros g Hf; [done|].
  inversion Hf as [|? ? Hc Hcs]; subst. rewrite exec_cons, IH by done.
  by destruct c.
Qed.

Lemma blend_flagfree swc xs : Forall flagfree (concat (map (blend_cmds swc) xs)).
Proof.
  induction xs as [|[[fk ik] b] xs IH]; cbn [map concat]; [constructor|].
  apply Forall_app_2; [|done]. repeat constructor.
Qed.

Lemma exec_lockAndHide (f : string -> attr) a l g :
  flags (exec (map (fun t => LockAndHide (f t)) l) g) !! a =
  if decide (a ∈ map f l) then Some hidden_flags else flags g !! a.
Proof.
  revert g. induction l as [|x l IH]; intros g; cbn [map].
  - destruct (decide (a ∈ [])) as [H|]; [by apply elem_of_nil in H|done].
  - rewrite exec_cons, IH. simpl.
    destruct (decide (a ∈ map f l)) as [Hl|Hl].
    + by rewrite decide_True by (by apply elem_of_cons; right).
    + destruct (decide (a = f x)) as [->|E].
      * rewrite decide_True by (by apply elem_of_cons; left).
        by rewrite lookup_insert_eq.
      * rewrite decide_False by (intros [?|?]%elem_of_cons; contradiction).
        by rewrite lookup_insert_ne.
Qed.

Lemma createTransform_flags (n x : string) (m : gmap attr attr_flags) :
  foldr (fun a m => <[(n, a) := keyable_flags]> m) m transform_channels !! (n, x) =
  if decide (x ∈ transform_channels) then Some keyable_flags else m !! (n, x).
Proof.
  induction transform_channels as [|y l IH]; cbn [foldr].
  - destruct (decide (x ∈ [])) as [H|]; [by apply elem_of_nil in H|done].
  - destruct (decide (x = y)) as [->|E].
    + rewrite lookup_insert_eq. by rewrite decide_True by (by apply elem_of_cons; left).
    + rewrite lookup_insert_ne by congruence. rewrite IH.
      destruct (decide (x ∈ l)) as [Hl|Hl].
      * by rewrite decide_True by (by apply elem_of_cons; right).
      * by rewrite decide_False by (intros [?|?]%elem_of_cons; contradiction).
Qed.

(** The switch's flags once [createFKIKSwitch] returns: those of its
    creation, overwritten by [lockAndHide]. *)
Lemma createFKIKSwitch_flags fkChain ikChain bindChain fkCntrls st ikc pv swn g swc g' a :
  createFKIKSwitch fkChain ikChain bindChain fkCntrls st ikc pv swn g = inr (swc, g') ->
  swc = swn /\
  flags g' !! a =
    if decide (a ∈ map (fun t => (swn, long_name t))
                       ["tx"; "ty"; "tz"; "rx"; "ry"; "rz"; "sx"; "sy"; "sz"])
    then Some hidden_flags
    else flags (exec [CreateTransform swn; AddAttr (swn, "FKIK_Switch") 0%Q] g) !! a.
Proof.
  unfold createFKIKSwitch. destruct (py_index_neg bindChain 1); [discriminate|].
  intros E. injection E as E1 E2. subst swc g'. split; [done|].
  unfold switch_cmds. rewrite !exec_app. unfold visibility_cmds. rewrite !exec_app.
  rewrite (exec_lockAndHide (fun t => (swn, long_name t))).
  destruct (decide _); [done|].
  rewrite (exec_flagfree [ConnectAttr _ _; ConnectAttr _ _; ConnectAttr _ _])
    by repeat constructor.
  rewrite (exec_flagfree (map _ fkCntrls)).
  2:{ apply Forall_forall. intros c Hc. apply list_elem_of_In, in_map_iff in Hc.
      by destruct Hc as (f & <- & _). }
  rewrite (exec_flagfree [CreateReverse _; ConnectAttr _ _]) by repeat constructor.
  by rewrite (exec_flagfree (concat _)) by apply blend_flagfree.
Qed.

End SwitchFacts.

Module SwitchClaims.
Import Switch SwitchFacts.

(** Claim C4: on every switch [createFKIKSwitch] builds, whatever value
    [w] the [FKIK_Switch] attribute is set to, the orient constraint of the
    bind joint at each index of the chains has IK weight [w1 = w] (connected
    to the switch) and FK weight [w0 = 1 - w] (the output of the joint's
    [reverse] node), so the two weights sum to 1.  This needs only that the
    scene had nothing wired into a [reverse] output or into the switch
    attribute before. *)
Theorem createFKIKSwitch_blend_weights fkChain ikChain bindChain fkCntrls startCntrl
    ikCntrl pvCntrl switchName g switchCtrl g' i fk ik b w fuel :
  (forall n, conns g !! (n, "outputX") = None) ->
  conns g !! (switchName, "FKIK_Switch") = None ->
  createFKIKSwitch fkChain ikChain bindChain fkCntrls startCntrl ikCntrl pvCntrl
                   switchName g = inr (switchCtrl, g') ->
  nth_error (zip3 fkChain ikChain bindChain) i = Some (fk, ik, b) ->
  (4 <= fuel)%nat ->
  let g'' := setAttr g' (switchCtrl, "FKIK_Switch") w in
  (oc_name b, b, [fk; ik]) ∈ ocs g'' /\
  eval fuel g'' (oc_name b, "w1") = w /\
  eval fuel g'' (oc_name b, "w0") = (1 - w)%Q /\
  (eval fuel g'' (oc_name b, "w0") + eval fuel g'' (oc_name b, "w1") == 1)%Q.
Proof.
  intros Hout Hsw Hc Hi Hf g''.
  unfold createFKIKSwitch in Hc. destruct (py_index_neg bindChain 1); [discriminate|].
  injection Hc as E1 E2. subst switchCtrl g'. unfold g''. clear g''.
  unfold switch_cmds. rewrite !exec_app.
  set (g0 := exec [CreateTransform switchName; AddAttr (switchName, "FKIK_Switch") 0%Q] g).
  assert (H0 : Inv0 switchName g0).
  { destruct (exec_harmless switchName
                [CreateTransform switchName; AddAttr (switchName, "FKIK_Switch") 0%Q] g)
      as (P & _); [repeat constructor|]. by apply P. }
  destruct (blend_loop switchName (zip3 fkChain ikChain bindChain) g0)
    as ((P0 & _ & _ & _) & Hloop).
  destruct (Hloop i fk ik b Hi) as (H1 & Hw0 & Ho).
  destruct (exec_harmless switchName
              (visibility_cmds switchName switchName fkCntrls startCntrl ikCntrl pvCntrl)
              (exec (concat (map (blend_cmds switchName) (zip3 fkChain ikChain bindChain))) g0)
              (visibility_harmless _ _ _ _ _ _)) as (Q0 & Q1 & Q2 & Q3).
  split; [by apply Q3|].
  assert (Hinv := Q0 (P0 H0)).
  rewrite (eval_w1 switchName); [|done|by apply Q1|lia].
  rewrite (eval_w0 switchName); [|done|by apply Q2|lia].
  split; [done|]. split; [done|]. ring.
Qed.

Lemma createFKIKSwitch_blend_weights_witness :
  (forall n, conns empty_dg !! (n, "outputX") = None) /\
  conns empty_dg !! ("leg_switch", "FKIK_Switch") = None /\
  createFKIKSwitch leg_fk leg_ik leg_bind leg_fkCntrls "ik_start_ctrl" "ik_ctrl" "pv_ctrl"
                   "leg_switch" empty_dg =
    inr ("leg_switch", exec (switch_cmds leg_fk leg_ik leg_bind leg_fkCntrls "ik_start_ctrl"
                                         "ik_ctrl" "pv_ctrl" "leg_switch") empty_dg) /\
  nth_error (zip3 leg_fk leg_ik leg_bind) 1 = Some ("fk_knee", "ik_knee", "knee") /\
  (4 <= 4)%nat /\
  let g'' := setAttr (exec (switch_cmds leg_fk leg_ik leg_bind leg_fkCntrls "ik_start_ctrl"
                                        "ik_ctrl" "pv_ctrl" "leg_switch") empty_dg)
                     ("leg_switch", "FKIK_Switch") (3 # 10) in
  (oc_name "knee", "knee", ["fk_knee"; "ik_knee"]) ∈ ocs g'' /\
  eval 4 g'' (oc_name "knee", "w1") = 3 # 10 /\
  eval 4 g'' (oc_name "knee", "w0") = (1 - (3 # 10))%Q /\
  (eval 4 g'' (oc_name "knee", "w0") + eval 4 g'' (oc_name "knee", "w1") == 1)%Q.
Proof.
  assert (H1 : forall n, conns empty_dg !! (n, "outputX") = None) by (intros n; reflexivity).
  assert (H2 : conns empty_dg !! ("leg_switch", "FKIK_Switch") = None) by reflexivity.
  assert (H3 : createFKIKSwitch leg_fk leg_ik leg_bind leg_fkCntrls "ik_start_ctrl" "ik_ctrl"
                 "pv_ctrl" "leg_switch" empty_dg =
               inr ("leg_switch", exec (switch_cmds leg_fk leg_ik leg_bind leg_fkCntrls
                       "ik_start_ctrl" "ik_ctrl" "pv_ctrl" "leg_switch") empty_dg))
    by reflexivity.
  assert (H4 : nth_error (zip3 leg_fk leg_ik leg_bind) 1 = Some ("fk_knee", "ik_knee", "knee"))
    by reflexivity.
  assert (H5 : (4 <= 4)%nat) by lia.
  split; [exact H1|]. split; [exact H2|]. split; [exact H3|]. split; [exact H4|].
  split; [exact H5|].
  exact (createFKIKSwitch_blend_weights _ _ _ _ _ _ _ _ _ _ _ 1 _ _ _ (3 # 10) 4
           H1 H2 H3 H4 H5).
Defined.

Lemma not_locked_channel (swn x : string) :
  x <> "translateX" -> x <> "translateY" -> x <> "translateZ" ->
  x <> "rotateX" -> x <> "rotateY" -> x <> "rotateZ" ->
  x <> "scaleX" -> x <> "scaleY" -> x <> "scaleZ" ->
  (swn, x) ∉ map (fun t => (swn, long_name t))
                 ["tx"; "ty"; "tz"; "rx"; "ry"; "rz"; "sx"; "sy"; "sz"].
Proof.
  intros ? ? ? ? ? ? ? ? ? Hin.
  apply (list_elem_of_fmap_1 (fun t => (swn, long_name t))) in Hin as (t & E & Ht).
  injection E as E.
  repeat (apply elem_of_cons in Ht as [->|Ht]; [simpl in E; congruence|]).
  by apply elem_of_nil in Ht.
Qed.

(** Counterexample to claim C10: on the switch of a three-joint leg, the
    [visibility] channel, which [lockAndHide] is not given, is still
    unlocked and keyable, so [FKIK_Switch] is not the only channel a user
    can key. *)
Lemma createFKIKSwitch_visibility_keyable :
  match createFKIKSwitch leg_fk leg_ik leg_bind leg_fkCntrls
          "ik_start_ctrl" "ik_ctrl" "pv_ctrl" "leg_switch" empty_dg with
  | inr (switchCtrl, g') =>
      flags g' !! (switchCtrl, "visibility") = Some keyable_flags /\
      locked keyable_flags = false /\ keyable keyable_flags = true
  | inl _ => False
  end.
Proof. vm_compute. split; [reflexivity|split; reflexivity]. Qed.

(** Claim C10, as the code has it: when [createFKIKSwitch] returns, the nine
    transform channels of the switch control are locked, non-keyable and
    hidden, its [FKIK_Switch] attribute is keyable, and its [visibility]
    channel is left unlocked and keyable. *)
Theorem createFKIKSwitch_switch_channels fkChain ikChain bindChain fkCntrls startCntrl
    ikCntrl pvCntrl switchName g switchCtrl g' :
  createFKIKSwitch fkChain ikChain bindChain fkCntrls startCntrl ikCntrl pvCntrl
                   switchName g = inr (switchCtrl, g') ->
  (forall t, t ∈ ["tx"; "ty"; "tz"; "rx"; "ry"; "rz"; "sx"; "sy"; "sz"] ->
             flags g' !! (switchCtrl, long_name t) = Some hidden_flags) /\
  flags g' !! (switchCtrl, "FKIK_Switch") = Some keyable_flags /\
  flags g' !! (switchCtrl, "visibility") = Some keyable_flags.
Proof.
  intros Hc.
  pose proof (fun a => createFKIKSwitch_flags _ _ _ _ _ _ _ _ _ _ _ a Hc) as Hf.
  destruct (Hf ("", "")) as [-> _].
  split; [|split].
  - intros t Ht. rewrite (proj2 (Hf _)).
    rewrite decide_True; [done|].
    by apply (list_elem_of_fmap_2 (fun t => (switchName, long_name t))).
  - rewrite (proj2 (Hf _)), decide_False by (apply not_locked_channel; discriminate).
    simpl. by rewrite lookup_insert_eq.
  - rewrite (proj2 (Hf _)), decide_False by (apply not_locked_channel; discriminate).
    cbn [exec fold_left exec_cmd flags]. rewrite lookup_insert_ne by congruence.
    rewrite createTransform_flags. rewrite decide_True; [done|].
    apply list_elem_of_In. simpl. tauto.
Qed.

Lemma createFKIKSwitch_switch_channels_witness :
  createFKIKSwitch leg_fk leg_ik leg_bind leg_fkCntrls "ik_start_ctrl" "ik_ctrl" "pv_ctrl"
                   "leg_switch" empty_dg =
    inr ("leg_switch", exec (switch_cmds leg_fk leg_ik leg_bind leg_fkCntrls "ik_start_ctrl"
                                         "ik_ctrl" "pv_ctrl" "leg_switch") empty_dg) /\
  let g' := exec (switch_cmds leg_fk leg_ik leg_bind leg_fkCntrls "ik_start_ctrl"
                               "ik_ctrl" "pv_ctrl" "leg_switch") empty_dg in
  (forall t, t ∈ ["tx"; "ty"; "tz"; "rx"; "ry"; "rz"; "sx"; "sy"; "sz"] ->
             flags g' !! ("leg_switch", long_name t) = Some hidden_flags) /\
  flags g' !! ("leg_switch", "FKIK_Switch") = Some keyable_flags /\
  flags g' !! ("leg_switch", "visibility") = Some keyable_flags.
Proof.
  assert (H : createFKIKSwitch leg_fk leg_ik leg_bind leg_fkCntrls "ik_start_ctrl" "ik_ctrl"
                "pv_ctrl" "leg_switch" empty_dg =
              inr ("leg_switch", exec (switch_cmds leg_fk leg_ik leg_bind leg_fkCntrls
                      "ik_start_ctrl" "ik_ctrl" "pv_ctrl" "leg_switch") empty_dg))
    by reflexivity.
  split; [exact H|].
  exact (createFKIKSwitch_switch_channels _ _ _ _ _ _ _ _ _ _ _ H).
Defined.

End SwitchClaims.

(** ** Further properties of the skeleton builder *)

Module SkeletonExtra.
Import Skeleton SkeletonFacts.

(** The joints [cmds.joint(jParent, e=True, zso=True, oj='xyz', sao='yup')]
    re-orients, one per created joint that has a parent. *)
Definition parents (js : list joint) : list string := omap jparent js.

(** [m] keeps the scene predicate [P] on every successful run. *)
Definition keeps (P : scene -> Prop) {A} (m : M A) : Prop :=
  forall s a s', P s -> m s = inr (a, s') -> P s'.

Lemma keeps_ret P {A} (a : A) : keeps P (ret a).
Proof. intros s a' s' HP H. unfold ret in H. by injection H as _ <-. Qed.

Lemma keeps_lift P {A} (r : exc + A) : keeps P (lift r).
Proof. intros s a s' HP H. by apply lift_inr_inv in H as [_ ->]. Qed.

Lemma keeps_bind P {A B} (m : M A) (k : A -> M B) :
  keeps P m -> (forall a, keeps P (k a)) -> keeps P (bind m k).
Proof.
  intros Hm Hk s b s' HP H. apply bind_inr_inv in H as (a & s1 & H1 & H2).
  eapply Hk; [|exact H2]. eapply Hm; [exact HP|exact H1].
Qed.

Definition oriented_ok (s : scene) : Prop := oriented s = parents (joints s).

Lemma keeps_createJointFromMarker n data p :
  keeps oriented_ok (createJointFromMarker n data p).
Proof.
  intros s a s' HP H. rewrite createJointFromMarker_eq in H.
  destruct (data !! n); [|discriminate]. destruct (decide _); [|discriminate].
  injection H as _ <-. unfold oriented_ok, parents in *. simpl.
  rewrite omap_app, HP. destruct p; simpl; [reflexivity|by rewrite app_nil_r].
Qed.

Lemma keeps_chain ns data p : keeps oriented_ok (createJointChainFromMarkers ns data p).
Proof.
  revert p. induction ns as [|n ns IH]; intros p; simpl.
  - apply keeps_ret.
  - apply keeps_bind; [apply keeps_createJointFromMarker|intros j].
    apply keeps_bind; [apply IH|intros js]. apply keeps_ret.
Qed.

Ltac req_err k Hk Hn :=
  exfalso;
  match goal with
  | Hr : Forall (fun n => is_Some (_ !! n)) (required_markers _) |- _ =>
      apply (forall_present_elem _ k _ Hr); [eapply elem_of_incl; [exact Hk|vdecide] | exact Hn]
  end.

Lemma createSkeleton_runs (data : markerDict) (sp : bool) (s : scene) :
  markers s = dom data ->
  Forall (fun n => is_Some (data !! n)) (required_markers sp) ->
  exists h s', createSkeleton data sp s = inr (h, s') /\
               markers s' = dom data ∖ list_to_set (required_markers sp).
Proof.
  intros Hm0 Hreq.
  assert (Hm : markers s = dom data ∖ ∅) by (rewrite Hm0; set_solver).
  clear Hm0.
  destruct sp; unfold createSkeleton; cbv beta iota zeta;
    repeat sk_step req_err; unfold ret;
    (match goal with
     | Hl : markers ?sl = dom data ∖ ?X |- exists h s', inr (?hh, ?sl) = _ /\ _ =>
         exists hh, sl; split; [reflexivity|]; rewrite Hl; f_equal; vdecide
     end).
Qed.

(** When the scene's markers are those of the dictionary and every name the
    topology reads is in it, [createSkeleton] succeeds, and each created
    joint has consumed its marker: the markers left are exactly the
    dictionary's names the topology does not use (none for a catalog
    marker set). *)
Theorem createSkeleton_success (data : markerDict) (sp : bool) (s : scene) :
  markers s = dom data ->
  Forall (fun n => is_Some (data !! n)) (required_markers sp) ->
  exists h s', createSkeleton data sp s = inr (h, s') /\
               markers s' = dom data ∖ list_to_set (required_markers sp).
Proof. apply createSkeleton_runs. Qed.

(** [createSkeleton] re-orients the parent of every joint it creates, right
    after the child is added: if the scene kept that discipline before, the
    re-oriented joints afterwards are exactly the parents of the scene's
    joints, in creation order, so a joint is re-oriented iff it has a child
    joint (leaf joints such as [head], the finger tips and [toe] are not). *)
Theorem createSkeleton_orients_parents (data : markerDict) (sp : bool) (s : scene)
    (h : handles) (s' : scene) :
  oriented s = parents (joints s) ->
  createSkeleton data sp s = inr (h, s') ->
  oriented s' = parents (joints s') /\
  (forall j, j ∈ oriented s' <-> exists c, c ∈ joints s' /\ jparent c = Some j).
Proof.
  intros H0 H.
  assert (Hk : keeps oriented_ok (createSkeleton data sp)).
  { unfold createSkeleton. cbv zeta.
    repeat (apply keeps_bind;
            [first [apply keeps_createJointFromMarker|apply keeps_chain|apply keeps_lift]
            |intros ?]).
    apply keeps_ret. }
  assert (Ho : oriented_ok s') by (eapply Hk; [exact H0|exact H]).
  split; [exact Ho|]. intros j. rewrite Ho. unfold parents.
  rewrite list_elem_of_omap. naive_solver.
Qed.

Lemma createSkeleton_success_witness :
  exists h s', createSkeleton (dict_of (fullBody false)) false (scene_of (fullBody false))
                 = inr (h, s') /\
    markers s' = dom (dict_of (fullBody false)) ∖ list_to_set (required_markers false).
Proof. apply createSkeleton_success; vdecide. Defined.

Lemma createSkeleton_orients_parents_witness :
  match createSkeleton (dict_of (fullBody true)) true (scene_of (fullBody true)) with
  | inr (h, s') =>
      oriented s' = parents (joints s') /\
      (forall j, j ∈ oriented s' <-> exists c, c ∈ joints s' /\ jparent c = Some j)
  | inl _ => False
  end.
Proof.
  destruct (createSkeleton (dict_of (fullBody true)) true (scene_of (fullBody true)))
    as [e|[h s']] eqn:E.
  - vm_compute in E. discriminate.
  - apply (createSkeleton_orients_parents (dict_of (fullBody true)) true
             (scene_of (fullBody true)) h s'); [reflexivity|exact E].
Defined.

End SkeletonExtra.

(** ** Further properties of the FK/IK snapping *)

Module SnapExtra.
Import Snap.

Lemma py_index_neg_1 {A} (l : list A) :
  py_index_neg l 1 = match last l with Some a => inr a | None => inl IndexError end.
Proof.
  unfold py_index_neg. destruct (last l) as [a|] eqn:E.
  - apply last_Some in E as [l' ->]. rewrite length_app. simpl.
    rewrite decide_True by lia. replace (length l' + 1 - 1)%nat with (length l') by lia.
    by rewrite nth_error_app2, Nat.sub_diag by lia.
  - apply last_None in E as ->. by rewrite decide_False by (simpl; lia).
Qed.

Lemma py_nth_lt {A} (l : list A) (i : nat) :
  (i < length l)%nat -> exists a, py_nth l i = inr a /\ nth_error l i = Some a.
Proof.
  intros Hi. unfold py_nth. destruct (nth_error l i) as [a|] eqn:E.
  - eauto.
  - apply nth_error_None in E. lia.
Qed.

Lemma py_nth_ge {A} (l : list A) (i : nat) : (length l <= i)%nat -> py_nth l i = inl IndexError.
Proof. intros Hi. unfold py_nth. by rewrite (proj2 (nth_error_None l i) Hi). Qed.

(** [snapIKtoFK] reads [fkControls[offset]], [fkControls[offset + 1]] and
    [fkControls[-1]]: it raises [IndexError] exactly when the list has fewer
    than [offset + 2] controllers, and succeeds otherwise (so the arm call,
    four controllers with offset 1, and the leg call, three with offset 0,
    never raise). *)
Theorem snapIKtoFK_bounds (fk ikc : list string) (h pv : string) (o : nat) (s : scene) :
  ((length fk < o + 2)%nat -> snapIKtoFK fk ikc h pv o s = inl IndexError) /\
  ((o + 2 <= length fk)%nat -> exists s', snapIKtoFK fk ikc h pv o s = inr s').
Proof.
  unfold snapIKtoFK. rewrite !py_index_neg_1. split; intros Hl.
  - destruct (last fk) as [cl|]; [|done].
    destruct (decide (o < length fk)%nat) as [Ho|Ho].
    + destruct (py_nth_lt fk (0 + o)) as (c0 & -> & _); [lia|].
      by rewrite py_nth_ge by lia.
    + by rewrite py_nth_ge by lia.
  - destruct (last fk) as [cl|] eqn:E.
    + destruct (py_nth_lt fk (0 + o)) as (c0 & -> & _); [lia|].
      destruct (py_nth_lt fk (1 + o)) as (c1 & -> & _); [lia|]. eauto.
    + apply last_None in E as ->. simpl in Hl. lia.
Qed.



End SnapExtra.

(** ** Snapping FK controllers onto the IK pose ([FKIK.snapFKtoIK]) *)

Module SnapFK.

(** The channel values [cmds.getAttr(node + '.' + attr)] of the scene. *)
Record scene : Type := mkScene { getAttr : string -> string -> Q }.

(** [cmds.setAttr(node + '.' + attr, v)] *)
Definition setAttr (node attr : string) (v : Q) (s : scene) : scene :=
  mkScene (fun n a => if String.eqb n node && String.eqb a attr then v else getAttr s n a).

















End SnapFK.

(** ** The offsets and constraints of the FK controllers *)

Module FKExtra.
Import FK.

(** Scene additions, appended in order. *)
Definition sapp (s d : scene) : scene :=
  mkScene (controllers s ++l controllers d) (offsets s ++l offsets d)
          (constraints s ++l constraints d).

Definition sempty : scene := mkScene [] [] [].

(** Each joint of a tree with the joint it hangs under ([parent] for the root). *)
Fixpoint edges (parent : option string) (t : jtree) : list (string * option string) :=
  let 'JNode n kids := t in (n, parent) :: concat (map (edges (Some n)) kids).

(** What the builder adds for a traversed tree [t] under [parent]: a
    controller per joint, each offset group [ctrl_<j>_parent] under the
    controller of [j]'s parent joint, and each joint constrained to its
    own controller. *)
Definition fk_delta (parent : option string) (t : jtree) : scene :=
  mkScene (map ctrl_name (preorder t))
          (map (fun '(j, p) => (ctrl_name j ++ "_parent", option_map ctrl_name p)) (edges parent t))
          (map (fun j => (ctrl_name j, j)) (preorder t)).

Lemma sapp_assoc (s d e : scene) : sapp (sapp s d) e = sapp s (sapp d e).
Proof. destruct s, d, e. unfold sapp; simpl. by rewrite !app_assoc. Qed.

Lemma sapp_empty (s : scene) : sapp s sempty = s.
Proof. destruct s. unfold sapp; simpl. by rewrite !app_nil_r. Qed.

Lemma extend_kids_snd (f : jtree -> scene -> list string * scene)
    (g : jtree -> scene) (kids : list jtree) (s : scene) :
  Forall (fun k => forall s, snd (f k s) = sapp s (g k)) kids ->
  snd (extend_kids f kids s) = sapp s (foldr sapp sempty (map g kids)).
Proof.
  revert s. induction kids as [|k kids IH]; intros s Hall; simpl.
  - by rewrite sapp_empty.
  - apply Forall_cons in Hall as [Hk Hall].
    destruct (f k s) as [cs s1] eqn:E. destruct (extend_kids f kids s1) as [cs' s2] eqn:E'.
    simpl. specialize (Hk s). rewrite E in Hk. simpl in Hk. subst s1.
    specialize (IH (sapp s (g k)) Hall). rewrite E' in IH. simpl in IH.
    by rewrite IH, sapp_assoc.
Qed.

Lemma fk_delta_node (parent : option string) (n : string) (kids : list jtree) :
  fk_delta parent (JNode n kids) =
  sapp (mkScene [ctrl_name n] [(ctrl_name n ++ "_parent", option_map ctrl_name parent)]
                [(ctrl_name n, n)])
       (foldr sapp sempty (map (fk_delta (Some n)) kids)).
Proof.
  unfold fk_delta at 1. cbn [preorder edges]. unfold sapp at 1. simpl. f_equal.
  - induction kids as [|k kids IH]; [done|]. simpl. injection IH as IH.
    by rewrite map_app, IH.
  - induction kids as [|k kids IH]; [done|]. simpl. injection IH as IH.
    by rewrite map_app, IH.
  - induction kids as [|k kids IH]; [done|]. simpl. injection IH as IH.
    by rewrite map_app, IH.
Qed.

(** [FK.createFKCharacterControllers] only appends to the scene, and what
    it appends over the traversed range (the tree cut below [endJoint]) is:
    a controller [ctrl_<j>] per joint in pre-order, the offset group
    [ctrl_<j>_parent] of every joint [j] parented under the controller of
    the joint [j] hangs under (the root's under [ctrl_<parent>], or
    nowhere without [parent]), and a [parentConstraint] from [ctrl_<j>] to
    [j] for every joint. *)
Theorem createFKCharacterControllers_scene (t : jtree) (parent endJoint : option string)
    (s : scene) :
  snd (createFKCharacterControllers t parent endJoint s) =
    sapp s (fk_delta parent (prune endJoint t)).
Proof.
  revert parent s. induction t as [n kids IH] using jtree_ind'; intros p s.
  simpl. destruct (decide (endJoint = Some n)) as [He|He].
  - simpl. rewrite fk_delta_node. simpl. rewrite sapp_empty. destruct s; reflexivity.
  - destruct (extend_kids _ kids _) as [cs s2] eqn:E. simpl.
    rewrite fk_delta_node, map_map.
    assert (Hf := extend_kids_snd
      (fun kid => createFKCharacterControllers kid (Some n) endJoint)
      (fun kid => fk_delta (Some n) (prune endJoint kid)) kids
      {| controllers := controllers s ++l [ctrl_name n];
         offsets := offsets s ++l [(ctrl_name n ++ "_parent", option_map ctrl_name p)];
         constraints := constraints s ++l [(ctrl_name n, n)] |}).
    rewrite E in Hf. simpl in Hf. rewrite Hf.
    + rewrite <- sapp_assoc. destruct s; reflexivity.
    + apply Forall_forall. intros k Hk s'. rewrite Forall_forall in IH. by apply IH.
Qed.

End FKExtra.

(** ** The error paths of the uniform scaling *)

Module ScaleExtra.
Import Scale.




End ScaleExtra.

(** ** Marker locators ([Markers.createMarkers] and the markers tab) *)

Module Locators.

(** The transforms of the scene in outliner order, the parent of each
    parented one, and the local translation of each. *)
Record scene : Type := mkScene {
  nodes : list string;
  parentOf : gmap string string;
  trans : string -> vec3
}.

(** A scene is well formed when every parent link joins two nodes. *)
Definition wf (s : scene) : Prop :=
  forall n p, parentOf s !! n = Some p -> n ∈ nodes s /\ p ∈ nodes s.

(** Maya's renaming of a requested name that is taken: the first free
    [name1], [name2], ... *)
Fixpoint fresh_from (used : list string) (n : string) (k fuel : nat) : string :=
  match fuel with
  | O => n ++ pretty k
  | S fuel' =>
      let c := n ++ pretty k in
      if decide (c ∈ used) then fresh_from used n (S k) fuel' else c
  end.

Definition fresh_name (used : list string) (n : string) : string :=
  if decide (n ∈ used) then fresh_from used n 1 (length used) else n.

(** [cmds.spaceLocator(n=name)[0]]: a new locator at the origin. *)
Definition spaceLocator (name : string) (s : scene) : string * scene :=
  let loc := fresh_name (nodes s) name in
  (loc, mkScene (nodes s ++l [loc]) (parentOf s) (Snap.upd (trans s) loc (0, 0, 0)%Q)).

(** [cmds.move(x, y, z, loc)] on an unparented transform: its translation. *)
Definition move (p : vec3) (obj : string) (s : scene) : scene :=
  mkScene (nodes s) (parentOf s) (Snap.upd (trans s) obj p).

(** [cmds.group(locators, name=name)]: a new transform at the origin, the
    parent of every listed node, whose local translation is kept. *)
Definition group (locs : list string) (name : string) (s : scene) : string * scene :=
  let g := fresh_name (nodes s) name in
  (g, mkScene (nodes s ++l [g]) (fold_left (fun m l => <[l := g]> m) locs (parentOf s))
              (Snap.upd (trans s) g (0, 0, 0)%Q)).

(** One iteration of the loop of [Markers.createMarkers]; [localScale]
    is not modelled. *)
Definition createMarker_step (acc : list string * scene) (marker : string * vec3)
  : list string * scene :=
  let '(locators, s) := acc in
  let '(name, pos) := marker in
  let '(loc, s1) := spaceLocator name s in
  (locators ++l [loc], move pos loc s1).

(** [Markers.createMarkers(markers)]: the group of the locators (its pivot
    is not modelled). *)
Definition createMarkers (markers : list (string * vec3)) (s : scene) : string * scene :=
  let '(locators, s1) := fold_left createMarker_step markers ([], s) in
  group locators "MarkersGrp" s1.

(** [cmds.listRelatives(x, children=True)]: [None] when there is no child. *)
Definition children (s : scene) (x : string) : list string :=
  filter (fun n => parentOf s !! n = Some x) (nodes s).

Definition listRelatives (s : scene) (x : string) : option (list string) :=
  match children s x with [] => None | l => Some l end.

(** [AutoRiggerGUI.updateMarkerData]: the new [markerNames] and
    [markerData]; [None] for the [TypeError] of iterating over [None]. *)
Definition updateMarkerData (s : scene) (markers : string)
  : option (list string * gmap string vec3) :=
  match listRelatives s markers with
  | None => None
  | Some markerNames =>
      Some (markerNames, fold_left (fun d n => <[n := trans s n]> d) markerNames ∅)
  end.

(** [cmds.duplicate(marker, n=name)]: a copy under the same parent. *)
Definition duplicate (marker name : string) (s : scene) : string * scene :=
  let d := fresh_name (nodes s) name in
  (d, mkScene (nodes s ++l [d])
              (match parentOf s !! marker with
               | Some p => <[d := p]> (parentOf s)
               | None => parentOf s
               end)
              (Snap.upd (trans s) d (trans s marker))).

(** [cmds.setAttr(node + '.tx', v)] *)
Definition setTx (node : string) (v : Q) (s : scene) : scene :=
  mkScene (nodes s) (parentOf s)
          (Snap.upd (trans s) node (let '(_, y, z) := trans s node in (v, y, z))).

Definition rightName (marker : string) : string := py_replace marker "_l" "_r".

(** One iteration of the loop of [onMirrorMarkersBtnClicked]. *)
Definition mirror_step (s : scene) (marker : string) : scene :=
  if Mirror.ends_with "_l" marker then
    let rightMarker := rightName marker in
    let '(_, s1) := duplicate marker rightMarker s in
    setTx rightMarker (- (let '(x, _, _) := trans s1 marker in x))%Q s1
  else s.

(** [AutoRiggerGUI.onMirrorMarkersBtnClicked]: the scene and the result of
    the closing [updateMarkerData]. *)
Definition onMirrorMarkersBtnClicked (s : scene) (markers : string)
  (markerNames : list string) : scene * option (list string * gmap string vec3) :=
  let s1 := fold_left mirror_step markerNames s in
  (s1, updateMarkerData s1 markers).

(** The markers of [onCreateMarkersBtnClicked]: the left side, then the
    base or spline base, then the right side for a full body. *)
Definition guiMarkers (splineSpine fullBody : bool) : list (string * vec3) :=
  Markers.defaultLeftMarkers ++l
  (if splineSpine then Markers.defaultSplineBaseMarkers else Markers.defaultBaseMarkers) ++l
  (if fullBody then Markers.defaultRightMarkers else []).

(** The markers the mirror button adds for the left-side markers of [ms]. *)
Definition mirrored (ms : list (string * vec3)) : list (string * vec3) :=
  map (fun '(n, p) => (rightName n, Mirror.mirrorX p))
      (filter (fun m => Mirror.ends_with "_l" m.1 = true) ms).

End Locators.

Module LocatorFacts.
Import Locators.

Lemma upd_same (f : string -> vec3) (k : string) (v : vec3) : Snap.upd f k v k = v.
Proof. unfold Snap.upd. by rewrite String.eqb_refl. Qed.

Lemma upd_other (f : string -> vec3) (k n : string) (v : vec3) :
  n <> k -> Snap.upd f k v n = f n.
Proof. intros Hn. unfold Snap.upd. by apply String.eqb_neq in Hn as ->. Qed.

Lemma names_cons (m : string * vec3) (ms : list (string * vec3)) :
  Skeleton.names (m :: ms) = m.1 :: Skeleton.names ms.
Proof. reflexivity. Qed.

Lemma fresh_name_free (used : list string) (n : string) :
  n ∉ used -> fresh_name used n = n.
Proof. intros Hn. unfold fresh_name. by rewrite decide_False. Qed.

Lemma filter_none {A} (P : A -> Prop) `{!forall x, Decision (P x)} (l : list A) :
  (forall x, x ∈ l -> ~ P x) -> filter P l = [].
Proof.
  induction l as [|x l IH]; intros Hl; [done|]. rewrite filter_cons.
  rewrite decide_False by (apply Hl; left). apply IH. intros y Hy. apply Hl. by right.
Qed.

Lemma filter_all {A} (P : A -> Prop) `{!forall x, Decision (P x)} (l : list A) :
  (forall x, x ∈ l -> P x) -> filter P l = l.
Proof.
  induction l as [|x l IH]; intros Hl; [done|]. rewrite filter_cons.
  rewrite decide_True by (apply Hl; left). f_equal. apply IH. intros y Hy. apply Hl. by right.
Qed.

Lemma fold_insert_lookup (locs : list string) (g x : string) (pm : gmap string string) :
  fold_left (fun m l => <[l := g]> m) locs pm !! x =
  if decide (x ∈ locs) then Some g else pm !! x.
Proof.
  revert pm. induction locs as [|l locs IH]; intros pm; [done|]. simpl. rewrite IH.
  destruct (decide (x ∈ locs)) as [Hx|Hx].
  - by rewrite decide_True by (by right).
  - destruct (decide (x = l)) as [->|Hne].
    + rewrite decide_True by left. by rewrite lookup_insert_eq.
    + rewrite decide_False by (rewrite elem_of_cons; tauto). by rewrite lookup_insert_ne by congruence.
Qed.

Lemma fold_update_commute (f : string -> vec3) (ns : list string) (x : string) (v : vec3)
    (m : gmap string vec3) :
  x ∉ ns ->
  fold_left (fun (d : gmap string vec3) n => <[n := f n]> d) ns (<[x := v]> m) =
  <[x := v]> (fold_left (fun d n => <[n := f n]> d) ns m).
Proof.
  revert m. induction ns as [|y ns IH]; intros m Hx; [done|]. simpl.
  rewrite insert_insert_ne by set_solver. apply IH. set_solver.
Qed.

(** The dictionary built by [updateMarkerData] is the marker list as a map. *)
Lemma fold_update_list_to_map (f : string -> vec3) (ms : list (string * vec3)) :
  NoDup (Skeleton.names ms) -> (forall n p, (n, p) ∈ ms -> f n = p) ->
  fold_left (fun d n => <[n := f n]> d) (Skeleton.names ms) (∅ : gmap string vec3)
    = list_to_map ms.
Proof.
  induction ms as [|[n p] ms IH]; intros Hnd Hf; [done|].
  rewrite names_cons in *. cbn [fold_left fst] in *. apply NoDup_cons in Hnd as [Hn Hnd].
  rewrite fold_update_commute by done. rewrite IH; [|done|].
  - rewrite (Hf n p) by left. reflexivity.
  - intros n' p' Hin. apply Hf. by right.
Qed.

Lemma create_loop (ms : list (string * vec3)) (locs : list string) (s : scene) :
  NoDup (Skeleton.names ms) -> (forall n, n ∈ Skeleton.names ms -> n ∉ nodes s) ->
  (fold_left createMarker_step ms (locs, s)).1 = locs ++l Skeleton.names ms /\
  nodes (fold_left createMarker_step ms (locs, s)).2 = nodes s ++l Skeleton.names ms /\
  parentOf (fold_left createMarker_step ms (locs, s)).2 = parentOf s /\
  (forall n p, (n, p) ∈ ms -> trans (fold_left createMarker_step ms (locs, s)).2 n = p) /\
  (forall n, n ∉ Skeleton.names ms ->
     trans (fold_left createMarker_step ms (locs, s)).2 n = trans s n).
Proof.
  revert locs s. induction ms as [|[n p] ms IH]; intros locs s Hnd Hfr.
  - simpl. rewrite !app_nil_r. split_and!; try done. intros n p Hin. by apply elem_of_nil in Hin.
  - rewrite names_cons in *. cbn [fst] in *. apply NoDup_cons in Hnd as [Hn Hnd].
    assert (Hstep : createMarker_step (locs, s) (n, p) =
      (locs ++l [n], mkScene (nodes s ++l [n]) (parentOf s)
                             (Snap.upd (Snap.upd (trans s) n (0, 0, 0)%Q) n p))).
    { unfold createMarker_step, spaceLocator. rewrite fresh_name_free by (apply Hfr; left).
      reflexivity. }
    cbn [fold_left]. rewrite Hstep.
    destruct (IH (locs ++l [n]) (mkScene (nodes s ++l [n]) (parentOf s)
                   (Snap.upd (Snap.upd (trans s) n (0, 0, 0)%Q) n p))) as (H1 & H2 & H3 & H4 & H5);
      [done| |].
    { intros n' Hn'. simpl. rewrite elem_of_app, list_elem_of_singleton.
      intros [Hs| ->]; [|done]. apply (Hfr n'); [by right|done]. }
    simpl in H2, H3, H5. split_and!.
    + by rewrite H1, <- app_assoc.
    + by rewrite H2, <- app_assoc.
    + done.
    + intros n' p' [[= -> ->]|Hin]%elem_of_cons.
      * by rewrite H5, upd_same.
      * by apply H4.
    + intros n' Hn'. rewrite H5 by set_solver. rewrite !upd_other by set_solver. done.
Qed.

(** What [Markers.createMarkers] leaves in a well-formed scene in which
    none of the marker names and no [MarkersGrp] exist yet. *)
Lemma createMarkers_scene (ms : list (string * vec3)) (s : scene) :
  wf s -> NoDup (Skeleton.names ms) ->
  (forall n, n ∈ Skeleton.names ms -> n ∉ nodes s) ->
  "MarkersGrp" ∉ nodes s -> "MarkersGrp" ∉ Skeleton.names ms ->
  (createMarkers ms s).1 = "MarkersGrp" /\
  nodes (createMarkers ms s).2 = nodes s ++l Skeleton.names ms ++l ["MarkersGrp"] /\
  wf (createMarkers ms s).2 /\
  children (createMarkers ms s).2 "MarkersGrp" = Skeleton.names ms /\
  (forall n p, (n, p) ∈ ms -> trans (createMarkers ms s).2 n = p).
Proof.
  intros Hwf Hnd Hfr Hg Hgm. unfold createMarkers.
  destruct (create_loop ms [] s Hnd Hfr) as (H1 & H2 & H3 & H4 & H5).
  destruct (fold_left createMarker_step ms ([], s)) as [locs s1]. simpl in *. subst locs.
  unfold group. rewrite fresh_name_free by (rewrite H2; set_solver).
  cbn [fst snd nodes parentOf trans]. split_and!.
  - done.
  - by rewrite H2, <- app_assoc.
  - unfold wf. cbn [parentOf nodes]. intros x q. rewrite fold_insert_lookup, H3, H2.
    destruct (decide (x ∈ Skeleton.names ms)).
    + intros [= <-]. set_solver.
    + intros Hx. destruct (Hwf x q Hx). set_solver.
  - unfold children. cbn [nodes parentOf]. rewrite H2, <- app_assoc, !filter_app.
    rewrite (filter_none _ (nodes s)), (filter_all _ (Skeleton.names ms)),
            (filter_none _ ["MarkersGrp"]); [by rewrite app_nil_r| | |].
    + intros x ->%list_elem_of_singleton. rewrite fold_insert_lookup, decide_False by done.
      rewrite H3. intros Hx. destruct (Hwf _ _ Hx). done.
    + intros x Hx. rewrite fold_insert_lookup. by rewrite decide_True.
    + intros x Hx. rewrite fold_insert_lookup, decide_False by (intros ?; by apply (Hfr x)).
      rewrite H3. intros Hp. destruct (Hwf _ _ Hp). done.
  - intros n p Hin. rewrite upd_other; [by apply H4|].
    intros Hn. apply Hgm. rewrite <- Hn. apply list_elem_of_In, in_map_iff. exists (n, p).
    split; [done|]. by apply list_elem_of_In.
Qed.

Lemma updateMarkerData_children (s : scene) (g : string) (ms : list (string * vec3)) :
  children s g = Skeleton.names ms -> ms <> [] -> NoDup (Skeleton.names ms) ->
  (forall n p, (n, p) ∈ ms -> trans s n = p) ->
  updateMarkerData s g = Some (Skeleton.names ms, list_to_map ms).
Proof.
  intros Hc Hne Hnd Ht. unfold updateMarkerData, listRelatives. rewrite Hc.
  destruct ms as [|m ms]; [done|]. rewrite names_cons.
  rewrite <- (fold_update_list_to_map (trans s) (m :: ms)) by done. reflexivity.
Qed.

(** [updateMarkerData] right after [Markers.createMarkers(markers)] reads
    back exactly the markers: their names in order, and a dictionary that
    maps each name to its position. *)
Theorem createMarkers_updateMarkerData (ms : list (string * vec3)) (s : scene) :
  wf s -> ms <> [] -> NoDup (Skeleton.names ms) ->
  (forall n, n ∈ Skeleton.names ms -> n ∉ nodes s) ->
  "MarkersGrp" ∉ nodes s -> "MarkersGrp" ∉ Skeleton.names ms ->
  updateMarkerData (createMarkers ms s).2 (createMarkers ms s).1 =
    Some (Skeleton.names ms, list_to_map ms).
Proof.
  intros Hwf Hne Hnd Hfr Hg Hgm.
  destruct (createMarkers_scene ms s Hwf Hnd Hfr Hg Hgm) as (-> & _ & _ & Hc & Ht).
  by apply updateMarkerData_children.
Qed.

Lemma filter_ext_in {A} (P Q : A -> Prop) `{!forall x, Decision (P x)}
    `{!forall x, Decision (Q x)} (l : list A) :
  (forall x, x ∈ l -> P x <-> Q x) -> filter P l = filter Q l.
Proof.
  induction l as [|x l IH]; intros Hl; [done|]. rewrite !filter_cons.
  assert (Hx : P x <-> Q x) by (apply Hl; left).
  rewrite IH by (intros y Hy; apply Hl; by right).
  destruct (decide (P x)), (decide (Q x)); tauto.
Qed.

Lemma names_app (ms ms' : list (string * vec3)) :
  Skeleton.names (ms ++l ms') = Skeleton.names ms ++l Skeleton.names ms'.
Proof. apply map_app. Qed.

Lemma elem_of_names (ms : list (string * vec3)) (n : string) (p : vec3) :
  (n, p) ∈ ms -> n ∈ Skeleton.names ms.
Proof.
  intros Hin. apply list_elem_of_In, in_map_iff. exists (n, p).
  split; [done|]. by apply list_elem_of_In.
Qed.

Lemma mirrored_cons (n : string) (p : vec3) (ms : list (string * vec3)) :
  mirrored ((n, p) :: ms) =
  if Mirror.ends_with "_l" n then (rightName n, Mirror.mirrorX p) :: mirrored ms
  else mirrored ms.
Proof.
  unfold mirrored. rewrite filter_cons. cbn [fst].
  destruct (Mirror.ends_with "_l" n); [rewrite decide_True|rewrite decide_False]; done.
Qed.

Lemma mirror_step_l (s : scene) (n g : string) :
  Mirror.ends_with "_l" n = true -> parentOf s !! n = Some g ->
  rightName n ∉ nodes s -> rightName n <> n ->
  nodes (mirror_step s n) = nodes s ++l [rightName n] /\
  parentOf (mirror_step s n) = <[rightName n := g]> (parentOf s) /\
  trans (mirror_step s n) (rightName n) = Mirror.mirrorX (trans s n) /\
  (forall x, x <> rightName n -> trans (mirror_step s n) x = trans s x).
Proof.
  intros E Hp Hr Hrn. unfold mirror_step. rewrite E. unfold duplicate.
  rewrite fresh_name_free by done. rewrite Hp. unfold setTx. cbn [nodes parentOf trans].
  split_and!; [done|done| |].
  - rewrite !upd_same. rewrite (upd_other _ _ n) by congruence.
    by destruct (trans s n) as [[x y] z].
  - intros x Hx. by rewrite !upd_other by done.
Qed.

Lemma mirror_loop (ms : list (string * vec3)) (s : scene) (g : string) :
  (forall n, n ∈ Skeleton.names ms -> parentOf s !! n = Some g) ->
  (forall n p, (n, p) ∈ ms -> trans s n = p) ->
  NoDup (Skeleton.names (mirrored ms)) ->
  (forall r, r ∈ Skeleton.names (mirrored ms) -> (r ∉ nodes s) /\ (r ∉ Skeleton.names ms)) ->
  nodes (fold_left mirror_step (Skeleton.names ms) s) = (nodes s ++l Skeleton.names (mirrored ms)) /\
  (forall x, parentOf (fold_left mirror_step (Skeleton.names ms) s) !! x =
     if decide (x ∈ Skeleton.names (mirrored ms)) then Some g else parentOf s !! x) /\
  (forall r p, (r, p) ∈ mirrored ms -> trans (fold_left mirror_step (Skeleton.names ms) s) r = p) /\
  (forall x, x ∉ Skeleton.names (mirrored ms) ->
     trans (fold_left mirror_step (Skeleton.names ms) s) x = trans s x).
Proof.
  revert s. induction ms as [|[n p] ms IH]; intros s Hpar Htr Hnd Hfr.
  - simpl. rewrite app_nil_r. split_and!; try done; set_solver.
  - rewrite names_cons in *. cbn [fold_left fst] in *. rewrite mirrored_cons in *.
    destruct (Mirror.ends_with "_l" n) eqn:E.
    + rewrite names_cons in *. cbn [fst] in *. apply NoDup_cons in Hnd as [Hr Hnd].
      destruct (Hfr (rightName n)) as [Hrs Hrn]; [left|].
      destruct (mirror_step_l s n g E) as (N1 & N2 & N3 & N4);
        [apply Hpar; left|done|set_solver|].
      destruct (IH (mirror_step s n)) as (I1 & I2 & I3 & I4).
      * intros n' Hn'. rewrite N2, lookup_insert_ne by set_solver. apply Hpar. by right.
      * intros n' p' Hin. rewrite N4; [apply Htr; by right|].
        intros ->. apply Hrn. right. by eapply elem_of_names.
      * done.
      * intros r Hr'. rewrite N1. destruct (Hfr r) as [H1 H2]; [by right|]. set_solver.
      * split_and!.
        -- by rewrite I1, N1, <- app_assoc.
        -- intros x. rewrite I2, N2. destruct (decide (x ∈ Skeleton.names (mirrored ms))).
           ++ by rewrite decide_True by (by right).
           ++ destruct (decide (x = rightName n)) as [->|Hx].
              ** rewrite decide_True by left. by rewrite lookup_insert_eq.
              ** rewrite decide_False by set_solver. by rewrite lookup_insert_ne by congruence.
        -- intros r q [[= -> ->]|Hin]%elem_of_cons.
           ++ rewrite I4 by done. rewrite N3. f_equal. apply Htr. left.
           ++ by apply I3.
        -- intros x Hx. rewrite I4 by set_solver. apply N4. set_solver.
    + assert (Hs : mirror_step s n = s) by (unfold mirror_step; by rewrite E).
      rewrite Hs. apply IH; [| |done|].
      * intros n' Hn'. apply Hpar. by right.
      * intros n' p' Hin. apply Htr. by right.
      * intros r Hr'. destruct (Hfr r Hr'). set_solver.
Qed.

(** [onMirrorMarkersBtnClicked], run on the markers just read by
    [updateMarkerData], adds for every marker ending in [_l] a copy named
    with [_l] replaced by [_r], mirrored through the YZ plane, and leaves
    the other markers as they were: the new [markerNames] are the old ones
    followed by the copies, and [markerData] maps each to its position.
    The copies' names must be new and distinct. *)
Theorem onMirrorMarkersBtnClicked_mirrors (ms : list (string * vec3)) (s : scene) (g : string) :
  children s g = Skeleton.names ms -> ms <> [] ->
  (forall n p, (n, p) ∈ ms -> trans s n = p) ->
  NoDup (Skeleton.names (ms ++l mirrored ms)) ->
  (forall r, r ∈ Skeleton.names (mirrored ms) -> r ∉ nodes s) ->
  (onMirrorMarkersBtnClicked s g (Skeleton.names ms)).2 =
    Some (Skeleton.names (ms ++l mirrored ms), list_to_map (ms ++l mirrored ms)).
Proof.
  intros Hc Hne Htr Hnd Hfr. rewrite names_app in Hnd.
  apply NoDup_app in Hnd as (Hnd1 & Hdis & Hnd2).
  assert (Hpar : forall n, n ∈ Skeleton.names ms -> parentOf s !! n = Some g).
  { intros n Hn. rewrite <- Hc in Hn. unfold children in Hn.
    by apply list_elem_of_filter in Hn as [Hn _]. }
  destruct (mirror_loop ms s g Hpar Htr Hnd2) as (L1 & L2 & L3 & L4).
  { intros r Hr. split; [by apply Hfr|]. intros Hr'. by apply (Hdis r). }
  unfold onMirrorMarkersBtnClicked. cbn [snd]. apply updateMarkerData_children.
  - unfold children. rewrite L1, filter_app, names_app. f_equal.
    + etransitivity; [|exact Hc]. unfold children. apply filter_ext_in. intros x Hx.
      rewrite L2, decide_False; [done|]. intros Hr. by apply (Hfr x).
    + apply filter_all. intros x Hx. by rewrite L2, decide_True.
  - by destruct ms.
  - rewrite names_app. apply NoDup_app. split_and!; done.
  - intros n p [Hin|Hin]%elem_of_app.
    + rewrite L4; [by apply Htr|]. intros Hr. apply (Hdis n); [by eapply elem_of_names|done].
    + by apply L3.
Qed.

Definition empty_scene : scene := mkScene [] ∅ (fun _ => (0, 0, 0)%Q).

Definition sample_markers : list (string * vec3) :=
  [("thigh_l", (9, 95, 1)); ("knee_l", (14, 55, 0)); ("pelvis", (0, 105, 0))]%Q.

Lemma createMarkers_updateMarkerData_witness :
  updateMarkerData (createMarkers sample_markers empty_scene).2
                   (createMarkers sample_markers empty_scene).1 =
    Some (Skeleton.names sample_markers, list_to_map sample_markers).
Proof.
  apply createMarkers_updateMarkerData.
  - intros n p Hn. discriminate.
  - discriminate.
  - apply (bool_decide_unpack _). vm_compute. exact I.
  - intros n _ Hn. by apply elem_of_nil in Hn.
  - intros Hn. by apply elem_of_nil in Hn.
  - apply (bool_decide_unpack _). vm_compute. exact I.
Defined.

Lemma onMirrorMarkersBtnClicked_mirrors_witness :
  (onMirrorMarkersBtnClicked (createMarkers sample_markers empty_scene).2 "MarkersGrp"
     (Skeleton.names sample_markers)).2 =
    Some (Skeleton.names (sample_markers ++l mirrored sample_markers),
          list_to_map (sample_markers ++l mirrored sample_markers)).
Proof.
  apply onMirrorMarkersBtnClicked_mirrors.
  - vm_compute. reflexivity.
  - discriminate.
  - intros n p Hin.
    repeat (apply elem_of_cons in Hin as [[= -> ->]|Hin]; [vm_compute; reflexivity|]).
    by apply elem_of_nil in Hin.
  - apply (bool_decide_unpack _). vm_compute. exact I.
  - assert (Hall : Forall (fun r => r ∉ nodes (createMarkers sample_markers empty_scene).2)
                          (Skeleton.names (mirrored sample_markers)))
      by (apply (bool_decide_unpack _); vm_compute; exact I).
    rewrite Forall_forall in Hall. exact Hall.
Defined.

End LocatorFacts.

(** ** The markers tab, from the markers to the skeleton *)

Module MarkersTab.
Import Locators LocatorFacts.

Ltac decide_concrete := apply (bool_decide_unpack _); vm_compute; exact I.

(** In a well-formed scene without any of the marker names and without a
    [MarkersGrp], creating the half-body markers and pressing the mirror
    button gives the same [markerNames] and [markerData] as creating the
    full-body markers directly: those of the full-body catalog, left side,
    base, right side.  [Skeleton.createSkeleton] then succeeds on that
    dictionary and consumes every marker. *)
Theorem markersTab_mirror_fullBody (sp : bool) (s : Locators.scene) :
  wf s -> (forall n, n ∈ Skeleton.names (fullBody sp) -> n ∉ nodes s) ->
  "MarkersGrp" ∉ nodes s ->
  (onMirrorMarkersBtnClicked (createMarkers (guiMarkers sp false) s).2
     (createMarkers (guiMarkers sp false) s).1 (Skeleton.names (guiMarkers sp false))).2
    = Some (Skeleton.names (fullBody sp), Skeleton.dict_of (fullBody sp)) /\
  updateMarkerData (createMarkers (guiMarkers sp true) s).2 (createMarkers (guiMarkers sp true) s).1
    = Some (Skeleton.names (fullBody sp), Skeleton.dict_of (fullBody sp)) /\
  exists h sk,
    Skeleton.createSkeleton (Skeleton.dict_of (fullBody sp)) sp
      (Skeleton.mkScene (dom (Skeleton.dict_of (fullBody sp))) [] []) = inr (h, sk) /\
    Skeleton.markers sk = ∅.
Proof.
  intros Hwf Hfr Hg.
  set (ms := guiMarkers sp false).
  assert (F1 : NoDup (Skeleton.names ms)) by (destruct sp; decide_concrete).
  assert (F2 : "MarkersGrp" ∉ Skeleton.names ms) by (destruct sp; decide_concrete).
  assert (F3 : Forall (fun n => n ∈ Skeleton.names (fullBody sp)) (Skeleton.names ms))
    by (destruct sp; decide_concrete).
  assert (F4 : NoDup (Skeleton.names (ms ++l mirrored ms))) by (destruct sp; decide_concrete).
  assert (F5 : Forall (fun n => n ∈ Skeleton.names (fullBody sp)) (Skeleton.names (mirrored ms)))
    by (destruct sp; decide_concrete).
  assert (F6 : "MarkersGrp" ∉ Skeleton.names (mirrored ms)) by (destruct sp; decide_concrete).
  assert (F7 : ms ++l mirrored ms = fullBody sp) by (destruct sp; vm_compute; reflexivity).
  assert (F8 : guiMarkers sp true = fullBody sp)
    by (unfold guiMarkers, fullBody, halfBody; destruct sp; by rewrite <- app_assoc).
  assert (F9 : NoDup (Skeleton.names (fullBody sp))) by (destruct sp; decide_concrete).
  assert (F10 : "MarkersGrp" ∉ Skeleton.names (fullBody sp)) by (destruct sp; decide_concrete).
  rewrite Forall_forall in F3, F5.
  split_and!.
  - destruct (createMarkers_scene ms s Hwf F1) as (C1 & C2 & C3 & C4 & C5);
      [intros n Hn; by apply Hfr, F3|done|done|].
    rewrite C1. rewrite onMirrorMarkersBtnClicked_mirrors; [by rewrite F7|done|by destruct sp|done|done|].
    intros r Hr. rewrite C2. rewrite names_app in F4. apply NoDup_app in F4 as (_ & Hdis & _).
    rewrite !elem_of_app, list_elem_of_singleton.
    intros [Hs|[Hm| ->]]; [by apply (Hfr r); [apply F5|]|by apply (Hdis r)|done].
  - rewrite F8. apply createMarkers_updateMarkerData; [done|by destruct sp|done| |done|done].
    intros n Hn. by apply Hfr.
  - destruct (SkeletonExtra.createSkeleton_runs (Skeleton.dict_of (fullBody sp)) sp
                (Skeleton.mkScene (dom (Skeleton.dict_of (fullBody sp))) [] []))
      as (h & sk & Hrun & Hm); [done|destruct sp; decide_concrete|].
    exists h, sk. split; [done|]. rewrite Hm. destruct sp; decide_concrete.
Qed.

Lemma markersTab_mirror_fullBody_witness :
  (onMirrorMarkersBtnClicked (createMarkers (guiMarkers false false) empty_scene).2
     (createMarkers (guiMarkers false false) empty_scene).1
     (Skeleton.names (guiMarkers false false))).2
    = Some (Skeleton.names (fullBody false), Skeleton.dict_of (fullBody false)).
Proof.
  refine (proj1 (markersTab_mirror_fullBody false empty_scene _ _ _)).
  - intros n p Hn. discriminate.
  - intros n _ Hn. by apply elem_of_nil in Hn.
  - intros Hn. by apply elem_of_nil in Hn.
Defined.

End MarkersTab.

(** ** Duplicated joint chains ([FKIK.duplicateChain]) *)

Module DupChain.
Import Scale.

(** [cmds.duplicate(joint, po=True, n=name)[0]]: the joint alone, copied
    next to the original, under the same parent. *)
Definition duplicate_po (joint name : string) (s : scene) : string * scene :=
  let d := Locators.fresh_name (order s) name in
  (d, mkScene (order s ++l [d])
              (match par s !! joint with
               | Some p => <[d := p]> (par s)
               | None => par s
               end)).

Definition dup_name (prefix joint : string) : string := prefix ++ "_" ++ joint.

(** [for joint in jointChain: dupChain.append(cmds.duplicate(...)[0])] *)
Definition dup_step (prefix : string) (acc : list string * scene) (joint : string)
  : list string * scene :=
  let '(dupChain, s) := acc in
  let '(dupJoint, s1) := duplicate_po joint (dup_name prefix joint) s in
  (dupChain ++l [dupJoint], s1).

(** [for i in range(len(dupChain)-1): cmds.parent(dupChain[i+1], dupChain[i])] *)
Definition link_step (dupChain : list string) (s : scene) (i : nat) : scene :=
  match dupChain !! i, dupChain !! S i with
  | Some a, Some b => parent b a s
  | _, _ => s
  end.

(** [FKIK.duplicateChain(jointChain, prefix)] *)
Definition duplicateChain (jointChain : list string) (prefix : string) (s : scene)
  : list string * scene :=
  let '(dupChain, s1) := fold_left (dup_step prefix) jointChain ([], s) in
  (dupChain, fold_left (link_step dupChain) (seq 0 (length dupChain - 1)) s1).

(** Every node with a parent is in the outliner. *)
Definition dag_wf (s : scene) : Prop :=
  forall n p, par s !! n = Some p -> n ∈ order s.

Lemma string_app_inj (a x y : string) : a ++ x = a ++ y -> x = y.
Proof. induction a as [|c a IH]; simpl; [done|]. intros [= H]. by apply IH. Qed.

Lemma dup_loop (chain : list string) (prefix : string) (acc : list string) (s : scene) :
  dag_wf s -> NoDup chain -> (forall j, j ∈ chain -> j ∈ order s) ->
  (forall j, j ∈ chain -> dup_name prefix j ∉ order s) ->
  (fold_left (dup_step prefix) chain (acc, s)).1 = acc ++l map (dup_name prefix) chain /\
  order (fold_left (dup_step prefix) chain (acc, s)).2 = order s ++l map (dup_name prefix) chain /\
  (forall j, j ∈ chain ->
     par (fold_left (dup_step prefix) chain (acc, s)).2 !! dup_name prefix j = par s !! j) /\
  (forall x, x ∉ map (dup_name prefix) chain ->
     par (fold_left (dup_step prefix) chain (acc, s)).2 !! x = par s !! x).
Proof.
  revert acc s. induction chain as [|j chain IH]; intros acc s Hwf Hnd Hex Hfr.
  - simpl. rewrite !app_nil_r. split_and!; try done; set_solver.
  - apply NoDup_cons in Hnd as [Hj Hnd]. cbn [fold_left].
    set (s1 := mkScene (order s ++l [dup_name prefix j])
                 (match par s !! j with
                  | Some p => <[dup_name prefix j := p]> (par s)
                  | None => par s
                  end)).
    assert (Hstep : dup_step prefix (acc, s) j = (acc ++l [dup_name prefix j], s1)).
    { unfold dup_step, duplicate_po. rewrite LocatorFacts.fresh_name_free by (apply Hfr; left).
      reflexivity. }
    assert (Hpar1 : forall x, x <> dup_name prefix j -> par s1 !! x = par s !! x).
    { intros x Hx. simpl. destruct (par s !! j); [|done]. by rewrite lookup_insert_ne by congruence. }
    assert (Hneq : forall j', j' ∈ chain -> dup_name prefix j' <> dup_name prefix j).
    { intros j' Hj' He. apply string_app_inj in He. injection He as He.
      apply string_app_inj in He. subst. done. }
    rewrite Hstep.
    destruct (IH (acc ++l [dup_name prefix j]) s1) as (I1 & I2 & I3 & I4); [| done| | |].
    { intros x q Hx. simpl. apply elem_of_app.
      destruct (decide (x = dup_name prefix j)) as [->|Hne]; [right; by left|].
      left. rewrite Hpar1 in Hx by done. by apply (Hwf _ q). }
    { intros j' Hj'. simpl. apply elem_of_app. left. apply Hex. by right. }
    { intros j' Hj'. simpl. rewrite elem_of_app, list_elem_of_singleton.
      intros [Ho|Ho]; [by apply (Hfr j'); [right|]|by apply (Hneq j')]. }
    split_and!.
    + by rewrite I1, <- app_assoc.
    + rewrite I2. simpl. by rewrite <- app_assoc.
    + intros j' [->|Hj']%elem_of_cons.
      * rewrite I4.
        -- simpl. destruct (par s !! j) eqn:E; [by rewrite lookup_insert_eq|].
           destruct (par s !! dup_name prefix j) as [q|] eqn:Eq; [|done].
           exfalso. apply (Hfr j); [left|]. by apply (Hwf _ q).
        -- intros (j'' & He & Hj'')%list_elem_of_fmap_1. symmetry in He. by apply (Hneq j'').
      * rewrite I3 by done. apply Hpar1.
        intros He. apply (Hfr j); [left|]. rewrite <- He. apply Hex. by right.
    + intros x Hx. rewrite I4 by set_solver. apply Hpar1. set_solver.
Qed.

Lemma dup_name_inj (prefix a b : string) : dup_name prefix a = dup_name prefix b -> a = b.
Proof.
  unfold dup_name. intros H. apply string_app_inj in H. injection H as H.
  by apply string_app_inj in H.
Qed.

Lemma map_dup_name_NoDup (prefix : string) (chain : list string) :
  NoDup chain -> NoDup (map (dup_name prefix) chain).
Proof.
  induction chain as [|j chain IH]; intros Hnd; simpl; [constructor|].
  apply NoDup_cons in Hnd as [Hj Hnd]. constructor; [|by apply IH].
  intros (j' & He & Hj')%list_elem_of_fmap_1. apply dup_name_inj in He. by subst.
Qed.

Lemma link_step_par (dups : list string) (s : scene) (i : nat) (x : string) :
  par (link_step dups s i) !! x =
  match dups !! i, dups !! S i with
  | Some a, Some b => if decide (x = b) then Some a else par s !! x
  | _, _ => par s !! x
  end.
Proof.
  unfold link_step. destruct (dups !! i) as [a|], (dups !! S i) as [b|]; try done.
  simpl. destruct (decide (x = b)) as [->|Hx].
  - by rewrite lookup_insert_eq.
  - by rewrite lookup_insert_ne by congruence.
Qed.

Lemma link_loop (dups : list string) (L : list nat) (s : scene) :
  NoDup dups -> NoDup L ->
  (forall i a b, i ∈ L -> dups !! i = Some a -> dups !! S i = Some b ->
     par (fold_left (link_step dups) L s) !! b = Some a) /\
  (forall x, (forall i, i ∈ L -> dups !! S i <> Some x) ->
     par (fold_left (link_step dups) L s) !! x = par s !! x).
Proof.
  intros Hnd. revert s. induction L as [|i0 L IH]; intros s HL.
  - split; [intros i a b Hi; by apply elem_of_nil in Hi|done].
  - apply NoDup_cons in HL as [Hi0 HL]. cbn [fold_left].
    destruct (IH (link_step dups s i0) HL) as [IHa IHb]. split.
    + intros i a b [->|Hi]%elem_of_cons Ha Hb.
      * rewrite IHb.
        -- rewrite link_step_par, Ha, Hb. by rewrite decide_True.
        -- intros i' Hi' Hb'. assert (S i' = S i0) as [= ->]
             by (eapply NoDup_lookup; [exact Hnd|exact Hb'|exact Hb]). done.
      * by apply (IHa i).
    + intros x Hx. rewrite IHb by (intros i Hi; apply Hx; by right).
      rewrite link_step_par. destruct (dups !! i0), (dups !! S i0) as [b|] eqn:E; try done.
      rewrite decide_False; [done|]. intros ->. apply (Hx i0); [left|done].
Qed.

Lemma link_loop_order (dups : list string) (L : list nat) (s : scene) (x : string) :
  (forall b, b ∈ dups -> b ∈ order s) ->
  x ∈ order (fold_left (link_step dups) L s) <-> x ∈ order s.
Proof.
  revert s. induction L as [|i L IH]; intros s Hd; [done|]. cbn [fold_left].
  assert (Hmem : forall y, y ∈ order (link_step dups s i) <-> y ∈ order s).
  { intros y. unfold link_step.
    destruct (dups !! i) as [a|], (dups !! S i) as [b|] eqn:E; try done.
    simpl. rewrite elem_of_app, list_elem_of_filter, list_elem_of_singleton.
    assert (Hb : b ∈ order s) by (apply Hd; by eapply list_elem_of_lookup_2).
    destruct (decide (y = b)) as [->|]; [tauto|tauto]. }
  rewrite IH; [apply Hmem|]. intros b Hb. apply Hmem. by apply Hd.
Qed.

(** [FKIK.duplicateChain(jointChain, prefix)], on distinct joints of a
    well-formed scene whose copies' names [prefix_joint] are free, returns
    the copies [prefix_joint] in chain order; the first copy hangs under the
    first joint's parent, each further copy under the previous copy, and no
    other node (the original chain in particular) changes parent; the
    scene's nodes are the old ones and the copies. *)
Theorem duplicateChain_structure (chain : list string) (prefix : string) (s : scene) :
  dag_wf s -> NoDup chain -> (forall j, j ∈ chain -> j ∈ order s) ->
  (forall j, j ∈ chain -> dup_name prefix j ∉ order s) ->
  (duplicateChain chain prefix s).1 = map (dup_name prefix) chain /\
  (forall j, chain !! 0 = Some j ->
     par (duplicateChain chain prefix s).2 !! dup_name prefix j = par s !! j) /\
  (forall i a b, (duplicateChain chain prefix s).1 !! i = Some a ->
     (duplicateChain chain prefix s).1 !! S i = Some b ->
     par (duplicateChain chain prefix s).2 !! b = Some a) /\
  (forall x, x ∉ (duplicateChain chain prefix s).1 ->
     par (duplicateChain chain prefix s).2 !! x = par s !! x) /\
  (forall x, x ∈ order (duplicateChain chain prefix s).2 <->
     x ∈ order s \/ x ∈ (duplicateChain chain prefix s).1).
Proof.
  intros Hwf Hnd Hex Hfr. unfold duplicateChain.
  destruct (dup_loop chain prefix [] s Hwf Hnd Hex Hfr) as (D1 & D2 & D3 & D4).
  rewrite app_nil_l in D1.
  destruct (fold_left (dup_step prefix) chain ([], s)) as [dups s1].
  cbn [fst snd] in *. subst dups.
  set (dups := map (dup_name prefix) chain).
  assert (Hndd : NoDup dups) by (by apply map_dup_name_NoDup).
  destruct (link_loop dups (seq 0 (length dups - 1)) s1 Hndd (NoDup_seq _ _)) as [La Lb].
  split_and!.
  - done.
  - intros j Hj. rewrite Lb.
    + apply D3. by eapply list_elem_of_lookup_2.
    + intros i _ Hi. assert (Hd0 : dups !! 0 = Some (dup_name prefix j))
        by (unfold dups; by rewrite list_lookup_fmap, Hj).
      assert (S i = 0) by (eapply NoDup_lookup; [exact Hndd|exact Hi|exact Hd0]). done.
  - intros i a b Ha Hb. apply (La i); [|done|done].
    apply elem_of_seq. apply lookup_lt_Some in Hb. lia.
  - intros x Hx. rewrite Lb.
    + apply D4. done.
    + intros i _ Hi. apply Hx. by eapply list_elem_of_lookup_2.
  - intros x. rewrite link_loop_order.
    + rewrite D2, elem_of_app. done.
    + intros b Hb. rewrite D2. apply elem_of_app. by right.
Qed.

(** A leg chain under the pelvis. *)
Definition leg_scene : scene :=
  mkScene ["pelvis"; "thigh_l"; "knee_l"; "foot_l"]
          (<["thigh_l" := "pelvis"]> (<["knee_l" := "thigh_l"]> (<["foot_l" := "knee_l"]> ∅))).

Lemma duplicateChain_structure_witness :
  (duplicateChain ["thigh_l"; "knee_l"; "foot_l"] "fk_leg_l" leg_scene).1 =
    ["fk_leg_l_thigh_l"; "fk_leg_l_knee_l"; "fk_leg_l_foot_l"] /\
  par (duplicateChain ["thigh_l"; "knee_l"; "foot_l"] "fk_leg_l" leg_scene).2
    !! "fk_leg_l_thigh_l" = Some "pelvis" /\
  par (duplicateChain ["thigh_l"; "knee_l"; "foot_l"] "fk_leg_l" leg_scene).2
    !! "fk_leg_l_foot_l" = Some "fk_leg_l_knee_l".
Proof.
  destruct (duplicateChain_structure ["thigh_l"; "knee_l"; "foot_l"] "fk_leg_l" leg_scene)
    as (H1 & H2 & H3 & _).
  - assert (Hm : map_Forall (fun n _ => n ∈ order leg_scene) (par leg_scene))
      by (apply (bool_decide_unpack _); vm_compute; exact I).
    intros n p Hn. exact (Hm n p Hn).
  - apply (bool_decide_unpack _). vm_compute. exact I.
  - assert (Hall : Forall (fun j => j ∈ order leg_scene) ["thigh_l"; "knee_l"; "foot_l"])
      by (apply (bool_decide_unpack _); vm_compute; exact I).
    rewrite Forall_forall in Hall. exact Hall.
  - assert (Hall : Forall (fun j => dup_name "fk_leg_l" j ∉ order leg_scene)
                          ["thigh_l"; "knee_l"; "foot_l"])
      by (apply (bool_decide_unpack _); vm_compute; exact I).
    rewrite Forall_forall in Hall. exact Hall.
  - split_and!.
    + exact H1.
    + apply (H2 "thigh_l"). reflexivity.
    + apply (H3 1). all: rewrite H1; reflexivity.
Defined.

End DupChain.

(** ** Organizing the rig in the outliner ([AutoRiggerGUI.cleanup]) *)

Module Cleanup.
Import Scale.

(** [cmds.group(em=True, n=name)]: an empty transform at the top. *)
Definition group_em (name : string) (s : scene) : string * scene :=
  let g := Locators.fresh_name (order s) name in
  (g, mkScene (order s ++l [g]) (par s)).

(** The IK handles and switches [cleanup] looks for on one side. *)
Definition ik_names (side : string) : list string :=
  ["leg_ik" ++ side; "arm_ik" ++ side; "leg" ++ side ++ "_ik"; "arm" ++ side ++ "_ik";
   "leg" ++ side ++ "_switch"; "arm" ++ side ++ "_switch"].

(** [if cmds.objExists(n): cmds.parent(n, parentGrp)] *)
Definition parent_if_exists (parentGrp : string) (s : scene) (n : string) : scene :=
  if decide (n ∈ order s) then parent n parentGrp s else s.

Definition cleanup_side (parentGrp : string) (s : scene) (side : string) : scene :=
  fold_left (parent_if_exists parentGrp) (ik_names side) s.

(** [AutoRiggerGUI.cleanup] with [self.rootControls[0]] and
    [self.skeleton[0]]; the enabling of the snapping widgets is not
    modelled. *)
Definition cleanup (rootControl skeletonRoot : string) (scaleUniform : bool) (s : scene)
  : exc + scene :=
  let '(parentGrp, s1) := group_em "rig" s in
  let s2 := parent (rootControl ++ "_parent") parentGrp s1 in
  let s3 := parent skeletonRoot parentGrp s2 in
  let s4 := fold_left (cleanup_side parentGrp) ["_l"; "_r"] s3 in
  if scaleUniform then createUnifromScaling rootControl parentGrp s4 else inr s4.

(** Every parent link joins two nodes of the outliner. *)
Definition dag_ok (s : scene) : Prop :=
  forall n p, par s !! n = Some p -> n ∈ order s /\ p ∈ order s.

Lemma parent_order (kid p : string) (s : scene) (x : string) :
  x ∈ order (parent kid p s) <-> x ∈ order s \/ x = kid.
Proof.
  simpl. rewrite elem_of_app, list_elem_of_filter, list_elem_of_singleton.
  destruct (decide (x = kid)); tauto.
Qed.

Lemma parent_par (kid p : string) (s : scene) (x : string) :
  par (parent kid p s) !! x = if decide (x = kid) then Some p else par s !! x.
Proof.
  simpl. destruct (decide (x = kid)) as [->|Hx].
  - by rewrite lookup_insert_eq.
  - by rewrite lookup_insert_ne by congruence.
Qed.

Lemma parent_if_exists_loop (g : string) (ns : list string) (s : scene) :
  (forall x, x ∈ order (fold_left (parent_if_exists g) ns s) <-> x ∈ order s) /\
  (forall x, par (fold_left (parent_if_exists g) ns s) !! x =
     if decide (x ∈ ns /\ x ∈ order s) then Some g else par s !! x).
Proof.
  revert s. induction ns as [|n ns IH]; intros s.
  - split; [done|]. intros x. rewrite decide_False; [done|]. intros [Hx _].
    by apply elem_of_nil in Hx.
  - cbn [fold_left]. destruct (IH (parent_if_exists g s n)) as [I1 I2].
    assert (Hord : forall x, x ∈ order (parent_if_exists g s n) <-> x ∈ order s).
    { intros x. unfold parent_if_exists. destruct (decide (n ∈ order s)); [|done].
      rewrite parent_order. split; [intros [H| ->]|]; auto. }
    split.
    + intros x. by rewrite I1, Hord.
    + intros x. rewrite I2.
      assert (Hp : par (parent_if_exists g s n) !! x =
                   if decide (x = n /\ n ∈ order s) then Some g else par s !! x).
      { unfold parent_if_exists. destruct (decide (n ∈ order s)).
        - rewrite parent_par. destruct (decide (x = n)); [rewrite decide_True|rewrite decide_False];
            naive_solver.
        - rewrite decide_False; naive_solver. }
      rewrite Hp. pose proof (Hord x) as Hx. pose proof (elem_of_cons ns x n) as Hc.
      repeat destruct (decide _); naive_solver.
Qed.

(** [cleanup] without uniform scaling, in a scene without a [rig] node in
    which the root controller's offset node and the skeleton root exist:
    it succeeds, and the children of the new [rig] group are exactly the
    offset node, the skeleton root and those of the twelve IK handle and
    switch names that exist; no other node changes parent. *)
Theorem cleanup_groups (rootControl skeletonRoot : string) (s : scene) :
  dag_ok s -> "rig" ∉ order s ->
  rootControl ++ "_parent" ∈ order s -> skeletonRoot ∈ order s ->
  exists s', cleanup rootControl skeletonRoot false s = inr s' /\
    (forall k, par s' !! k = Some "rig" <->
       k = rootControl ++ "_parent" \/ k = skeletonRoot \/
       (k ∈ ik_names "_l" ++l ik_names "_r" /\ k ∈ order s)) /\
    (forall k, k <> rootControl ++ "_parent" -> k <> skeletonRoot ->
       k ∉ ik_names "_l" ++l ik_names "_r" -> par s' !! k = par s !! k).
Proof.
  intros Hok Hrig Hoff Hsk. unfold cleanup, group_em.
  rewrite LocatorFacts.fresh_name_free by done.
  set (s1 := mkScene (order s ++l ["rig"]) (par s)).
  set (s3 := parent skeletonRoot "rig" (parent (rootControl ++ "_parent") "rig" s1)).
  assert (Hfold : fold_left (cleanup_side "rig") ["_l"; "_r"] s3 =
                  fold_left (parent_if_exists "rig") (ik_names "_l" ++l ik_names "_r") s3)
    by (rewrite fold_left_app; reflexivity).
  rewrite Hfold. eexists. split; [reflexivity|].
  destruct (parent_if_exists_loop "rig" (ik_names "_l" ++l ik_names "_r") s3) as [_ L2].
  assert (Ho3 : forall x, x ∈ order s3 <-> x ∈ order s \/ x = "rig").
  { intros x. unfold s3. rewrite !parent_order. unfold s1. cbn [order].
    rewrite elem_of_app, list_elem_of_singleton. split.
    - intros [[[H|H]| ->]| ->]; auto.
    - intros [H|H]; auto. }
  assert (Hp3 : forall x, par s3 !! x =
      if decide (x = skeletonRoot) then Some "rig"
      else if decide (x = rootControl ++ "_parent") then Some "rig" else par s !! x).
  { intros x. unfold s3. by rewrite !parent_par. }
  assert (Hnr : "rig" ∉ ik_names "_l" ++l ik_names "_r")
    by (apply (bool_decide_unpack _); vm_compute; exact I).
  split.
  - intros k. rewrite L2, Hp3. split.
    + destruct (decide _) as [[Hk Ho]|Hk].
      * intros _. right; right. split; [exact Hk|].
        apply Ho3 in Ho as [Ho|Ho]; [exact Ho|]. subst k. exfalso. exact (Hnr Hk).
      * destruct (decide (k = skeletonRoot)) as [Hs|Hs]; [intros _; right; left; exact Hs|].
        destruct (decide (k = rootControl ++ "_parent")) as [Hr|Hr]; [intros _; left; exact Hr|].
        intros Hp. destruct (Hok _ _ Hp) as [_ Hr']. exfalso. exact (Hrig Hr').
    + intros Hk. destruct (decide _) as [_|Hn]; [reflexivity|].
      destruct (decide (k = skeletonRoot)); [reflexivity|].
      destruct (decide (k = rootControl ++ "_parent")); [reflexivity|].
      exfalso. destruct Hk as [Hk|[Hk|[Hk Ho]]]; [contradiction|contradiction|].
      apply Hn. split; [exact Hk|]. apply Ho3. by left.
  - intros k H1 H2 H3. rewrite L2, Hp3.
    destruct (decide _) as [[Hk _]|_]; [contradiction|].
    destruct (decide _); [contradiction|].
    destruct (decide _); [contradiction|]. reflexivity.
Qed.

(** A rig before [cleanup]: the root controller under its offset node, the
    skeleton root, the left leg's IK handle and switch. *)
Definition rig_scene : scene :=
  mkScene ["root_ctrl_parent"; "root_ctrl"; "root"; "leg_ik_l"; "leg_l_switch"]
          (<["root_ctrl" := "root_ctrl_parent"]> ∅).

Lemma cleanup_groups_witness :
  exists s', cleanup "root_ctrl" "root" false rig_scene = inr s' /\
    par s' !! "leg_ik_l" = Some "rig" /\ par s' !! "arm_ik_l" <> Some "rig" /\
    par s' !! "root_ctrl" = Some "root_ctrl_parent".
Proof.
  destruct (cleanup_groups "root_ctrl" "root" rig_scene) as (s' & Hrun & Hrig & Hsame).
  - assert (Hm : map_Forall (fun n p => n ∈ order rig_scene /\ p ∈ order rig_scene)
                            (par rig_scene))
      by (apply (bool_decide_unpack _); vm_compute; exact I).
    intros n p Hn. exact (Hm n p Hn).
  - apply (bool_decide_unpack _). vm_compute. exact I.
  - apply (bool_decide_unpack _). vm_compute. exact I.
  - apply (bool_decide_unpack _). vm_compute. exact I.
  - exists s'. split_and!.
    + exact Hrun.
    + apply Hrig. right; right. split; apply (bool_decide_unpack _); vm_compute; exact I.
    + intros H. apply Hrig in H as [H|[H|[_ H]]]; [discriminate|discriminate|].
      revert H. apply (bool_decide_unpack _). vm_compute. exact I.
    + rewrite Hsame; [reflexivity|discriminate|discriminate|].
      apply (bool_decide_unpack _). vm_compute. exact I.
Defined.

End Cleanup.
